(** * CardPool: a two-tier recency pool of AdaptiveCards

    Shallow embedding of [src/adaptivecards-pool.ts] (class [CardPool]) and
    the properties of its eviction policy.

    Modelling conventions
    - [cardPool] is an object literal [{}] typed [Record<CardName,
      AdaptiveCard>]: its own properties are a [gmap string AdaptiveCard],
      written by assignment and removed by [delete]; a read
      [this.cardPool[cardName]] finds the own property or, for want of one,
      the member of that name that the object inherits from
      [Object.prototype] ([lookupCard]).
    - A JS [Set<CardName>] iterates in insertion order, so it is a list of
      names, oldest first, kept free of duplicates by [add].
    - [number] capacities are integers ([Z]); an omitted constructor
      argument is [None].
    - An argument has the type the signature gives it: a [statefulCard] that
      is supplied is an [AdaptiveCard], so the guard of [markCardInuse] and
      its [instanceof] test agree.
    - Methods mutate [this] and write to the console, and [getCard] may be
      interrupted by an exception thrown while a card is built, so methods
      are computations in a state-and-exception monad over the pool and the
      console. *)

From Stdlib Require Import ZArith Lia.
From stdpp Require Import base option list strings pretty gmap.

Abbreviation CardName := string (only parsing).

(** ** Ordered sets ([Set<CardName>]) *)

Module JSSet.
Abbreviation t := (list CardName) (only parsing).

Definition empty : t := [].

Definition has (s : t) (x : CardName) : bool := bool_decide (x ∈ s).

(** [s.delete(x)]: nothing happens when [x] is not a member. *)
Definition delete (s : t) (x : CardName) : t := filter (λ y, y ≠ x) s.

(** [s.add(x)]: a new member goes to the end, a member keeps its place. *)
Definition add (s : t) (x : CardName) : t :=
  if has s x then s else s ++ [x].

Definition size (s : t) : Z := Z.of_nat (length s).

(** [Array.from(s)] *)
Definition toArray (s : t) : list CardName := s.
End JSSet.

(** ** The prototype of the storage object *)

(** The names of the members of [Object.prototype], which every object
    literal inherits (ECMAScript, with the legacy accessors of its Annex B).
    None of them has the value [undefined]: they are functions, and
    [__proto__] reads as [Object.prototype] itself. *)
Definition ObjectPrototype : list CardName :=
  ["constructor"; "hasOwnProperty"; "isPrototypeOf"; "propertyIsEnumerable";
   "toLocaleString"; "toString"; "valueOf"; "__proto__";
   "__defineGetter__"; "__defineSetter__"; "__lookupGetter__"; "__lookupSetter__"].

Definition inherited (cardName : CardName) : bool :=
  bool_decide (cardName ∈ ObjectPrototype).

(** [Math.ceil(a / b)] on integers, for a positive [b]. *)
Definition Math_ceil_div (a b : Z) : Z := (- ((- a) / b))%Z.

(** ** The class *)

Section CardPool.

(** The [adaptivecards] library is outside the repository: cards and
    payloads are opaque, and building a card from a payload
    ([new AdaptiveCard()], [card.parse], [card.setCustomProperty]) either
    yields the card or throws. *)
Context {AdaptiveCard CardPayload Exn : Type}.
Context (newAdaptiveCard : CardName → CardPayload → Exn + AdaptiveCard).

(** The argument of the constructor; [None] is an omitted argument. *)
Context (cardPoolCapacity : option Z).

(** [constructor(cardPoolCapacity = 8)]: the two readonly capacities. *)
Definition CAPACITY_CARDS : Z := Z.max 4 (default 8%Z cardPoolCapacity).
Definition CAPACITY_STATEFUL_CARDS : Z := Math_ceil_div CAPACITY_CARDS 4.

(** The three structures a pool owns. *)
Record CardPool := mkCardPool {
  cardPool : gmap string AdaptiveCard;
  cardSet : JSSet.t;
  statefulCardSet : JSSet.t
}.

(** What a read [this.cardPool[cardName]] finds when it is not [undefined]:
    a stored card, or the member of [Object.prototype] of that name. *)
Inductive Found :=
| Card (card : AdaptiveCard)
| Inherited (cardName : CardName).

(** [this.cardPool[cardName]]; [None] is [undefined]. *)
Definition lookupCard (m : gmap string AdaptiveCard) (cardName : CardName)
    : option Found :=
  match m !! cardName with
  | Some card => Some (Card card)
  | None => if inherited cardName then Some (Inherited cardName) else None
  end.

Definition newCardPool : CardPool :=
  {| cardPool := ∅; cardSet := JSSet.empty; statefulCardSet := JSSet.empty |}.

Definition set_cardPool (f : gmap string AdaptiveCard → gmap string AdaptiveCard)
    (p : CardPool) : CardPool :=
  {| cardPool := f (cardPool p); cardSet := cardSet p;
     statefulCardSet := statefulCardSet p |}.

Definition set_cardSet (f : JSSet.t → JSSet.t) (p : CardPool) : CardPool :=
  {| cardPool := cardPool p; cardSet := f (cardSet p);
     statefulCardSet := statefulCardSet p |}.

Definition set_statefulCardSet (f : JSSet.t → JSSet.t) (p : CardPool) : CardPool :=
  {| cardPool := cardPool p; cardSet := cardSet p;
     statefulCardSet := f (statefulCardSet p) |}.

(** What [console.debug] prints ([DEBUG_MODE] is [true]); a set passed to
    it is printed with the members it has at that moment. *)
Inductive DebugMsg :=
| HitCachedCard (cardName : CardName)
| AddedCard (cardName : CardName)
| DequeuedStatefulCard (cardName : option CardName) (statefulCardSet : JSSet.t)
| PurgedNonStatefulCard (cardName : CardName) (cardSet : JSSet.t).

Record World := mkWorld {
  this : CardPool;
  console : list DebugMsg
}.

(** *** State and exceptions *)

Definition M (A : Type) : Type := World → World * (Exn + A).

Definition ret {A} (a : A) : M A := λ w, (w, inr a).

Definition bind {A B} (m : M A) (k : A → M B) : M B :=
  λ w, match m w with
       | (w', inr a) => k a w'
       | (w', inl e) => (w', inl e)
       end.

Definition throw {A} (e : Exn) : M A := λ w, (w, inl e).

Definition read : M CardPool := λ w, (w, inr (this w)).

Definition update (f : CardPool → CardPool) : M unit :=
  λ w, ({| this := f (this w); console := console w |}, inr tt).

Definition console_debug (msg : DebugMsg) : M unit :=
  λ w, ({| this := this w; console := console w ++ [msg] |}, inr tt).

#[local] Instance M_ret : MRet M := @ret.
#[local] Instance M_bind : MBind M := λ A B k m, bind m k.

(** *** [createCardOnDemand] (lines 57-63) *)

Definition createCardOnDemand (cardName : CardName) (cardPayload : CardPayload)
    : M AdaptiveCard :=
  match newAdaptiveCard cardName cardPayload with
  | inl e => throw e
  | inr card => console_debug (AddedCard cardName) ;; ret card
  end.

(** *** [purgeUnusedCard] (lines 65-81) *)

(** Lines 66-70: the stateful set gives up its oldest member. *)
Definition dequeueStatefulCard : M unit :=
  p ← read;
  if bool_decide (JSSet.size (statefulCardSet p) > CAPACITY_STATEFUL_CARDS)%Z then
    let cardName := head (JSSet.toArray (statefulCardSet p)) in
    update (set_statefulCardSet
              (λ s, from_option (JSSet.delete s) s cardName)) ;;
    p' ← read;
    console_debug (DequeuedStatefulCard cardName (statefulCardSet p'))
  else ret tt.

(** Lines 72-79: the loop over the snapshot [Array.from(this.cardSet)],
    left by [break] at the first name outside the stateful set. *)
Fixpoint purgeLoop (names : list CardName) : M unit :=
  match names with
  | [] => ret tt
  | cardName :: rest =>
      p ← read;
      if negb (JSSet.has (statefulCardSet p) cardName) then
        update (set_cardSet (λ s, JSSet.delete s cardName)) ;;
        update (set_cardPool (delete cardName)) ;;
        p' ← read;
        console_debug (PurgedNonStatefulCard cardName (cardSet p'))
      else purgeLoop rest
  end.

(** Lines 71-80. *)
Definition purgeCard : M unit :=
  p ← read;
  if bool_decide (JSSet.size (cardSet p) > CAPACITY_CARDS)%Z then
    purgeLoop (JSSet.toArray (cardSet p))
  else ret tt.

Definition purgeUnusedCard : M unit :=
  dequeueStatefulCard ;; purgeCard.

(** *** [markCardInuse] (lines 43-55) *)

Definition markCardInuse (cardName : CardName) (statefulCard : option AdaptiveCard)
    : M unit :=
  p ← read;
  if bool_decide (is_Some (lookupCard (cardPool p) cardName))
     || bool_decide (is_Some statefulCard) then
    update (set_cardSet (λ s, JSSet.delete s cardName)) ;;
    update (set_cardSet (λ s, JSSet.add s cardName)) ;;
    match statefulCard with
    | Some card =>
        update (set_statefulCardSet (λ s, JSSet.delete s cardName)) ;;
        update (set_statefulCardSet (λ s, JSSet.add s cardName)) ;;
        update (set_cardPool (λ m, match lookupCard m cardName with
                                   | Some _ => m
                                   | None => <[cardName := card]> m
                                   end))
    | None => ret tt
    end ;;
    purgeUnusedCard
  else ret tt.

(** *** [getCard] (lines 33-41) *)

Definition getCard (cardName : CardName) (cardPayload : option CardPayload)
    : M (option Found) :=
  p ← read;
  match lookupCard (cardPool p) cardName, cardPayload with
  | Some _, _ => console_debug (HitCachedCard cardName)
  | None, Some payload =>
      card ← createCardOnDemand cardName payload;
      update (set_cardPool <[cardName := card]>)
  | None, None => ret tt
  end ;;
  markCardInuse cardName None ;;
  p' ← read;
  ret (lookupCard (cardPool p') cardName).

(** *** Clients *)

(** A call of one of the two public methods. *)
Inductive Call :=
| GetCard (cardName : CardName) (cardPayload : option CardPayload)
| MarkCardInuse (cardName : CardName) (statefulCard : option AdaptiveCard).

(** The world a call leaves behind, whether it returned or threw. *)
Definition call (w : World) (c : Call) : World :=
  match c with
  | GetCard cardName cardPayload => fst (getCard cardName cardPayload w)
  | MarkCardInuse cardName statefulCard => fst (markCardInuse cardName statefulCard w)
  end.

Definition newWorld : World := {| this := newCardPool; console := [] |}.

(** The world after a client made the calls [cs], in order, on a new pool. *)
Definition after (cs : list Call) : World := foldl call newWorld cs.

(** ** Invariants *)


(** What holds of the pool between the calls of a client: the lists are
    sets, the stateful names are pooled names, a read of the storage finds
    something under every pooled name, and every name with a stored card is
    a pooled name that [Object.prototype] has no member of. *)
Definition pool_inv (p : CardPool) : Prop :=
  NoDup (cardSet p) ∧ NoDup (statefulCardSet p) ∧
  statefulCardSet p ⊆ cardSet p ∧
  (∀ n : CardName, n ∈ cardSet p → is_Some (lookupCard (cardPool p) n)) ∧
  (∀ n : CardName, is_Some (cardPool p !! n) → n ∈ cardSet p ∧ inherited n = false).

(** Both sets are at most [k] names over their capacities. *)
Definition within (k : Z) (p : CardPool) : Prop :=
  (JSSet.size (cardSet p) ≤ CAPACITY_CARDS + k)%Z ∧
  (JSSet.size (statefulCardSet p) ≤ CAPACITY_STATEFUL_CARDS + k)%Z.

(** The world in which [markCardInuse] enters [purgeUnusedCard]
    (lines 45-52 done). *)
Definition marked (cardName : CardName) (statefulCard : option AdaptiveCard)
    (w : World) : World :=
  let p := this w in
  {| this :=
       {| cardPool := match statefulCard, lookupCard (cardPool p) cardName with
                      | Some card, None => <[cardName := card]> (cardPool p)
                      | _, _ => cardPool p
                      end;
          cardSet := JSSet.add (JSSet.delete (cardSet p) cardName) cardName;
          statefulCardSet :=
            match statefulCard with
            | Some _ => JSSet.add (JSSet.delete (statefulCardSet p) cardName) cardName
            | None => statefulCardSet p
            end |};
     console := console w |}.

(** The world after the loop of [purgeUnusedCard] has purged [cardName]. *)
Definition purged (cardName : CardName) (w : World) : World :=
  let p := this w in
  {| this := {| cardPool := delete cardName (cardPool p);
                cardSet := JSSet.delete (cardSet p) cardName;
                statefulCardSet := statefulCardSet p |};
     console := console w ++
       [PurgedNonStatefulCard cardName (JSSet.delete (cardSet p) cardName)] |}.

(** The world after [purgeUnusedCard] has dequeued the oldest stateful name. *)
Definition dequeued (w : World) : World :=
  let p := this w in
  let s := from_option (JSSet.delete (statefulCardSet p)) (statefulCardSet p)
             (head (statefulCardSet p)) in
  {| this := {| cardPool := cardPool p; cardSet := cardSet p; statefulCardSet := s |};
     console := console w ++ [DequeuedStatefulCard (head (statefulCardSet p)) s] |}.

(** ** Capacities *)

Lemma CAPACITY_CARDS_ge : (4 ≤ CAPACITY_CARDS)%Z.
Proof. unfold CAPACITY_CARDS. lia. Qed.

Lemma CAPACITY_STATEFUL_CARDS_ceil :
  (CAPACITY_CARDS ≤ 4 * CAPACITY_STATEFUL_CARDS < CAPACITY_CARDS + 4)%Z.
Proof.
  unfold CAPACITY_STATEFUL_CARDS, Math_ceil_div.
  pose proof (Z.div_mod (- CAPACITY_CARDS) 4 ltac:(lia)).
  pose proof (Z.mod_pos_bound (- CAPACITY_CARDS) 4 ltac:(lia)).
  lia.
Qed.

Lemma CAPACITY_STATEFUL_CARDS_lt :
  (1 ≤ CAPACITY_STATEFUL_CARDS < CAPACITY_CARDS)%Z.
Proof.
  pose proof CAPACITY_CARDS_ge. pose proof CAPACITY_STATEFUL_CARDS_ceil. lia.
Qed.

(** ** Ordered sets *)

Lemma elem_of_delete (s : JSSet.t) x y : y ∈ JSSet.delete s x ↔ y ∈ s ∧ y ≠ x.
Proof. unfold JSSet.delete. rewrite list_elem_of_filter. tauto. Qed.

Lemma NoDup_delete (s : JSSet.t) x : NoDup s → NoDup (JSSet.delete s x).
Proof. apply NoDup_filter. Qed.

Lemma length_delete (s : JSSet.t) x : length (JSSet.delete s x) ≤ length s.
Proof. apply length_filter. Qed.

Lemma delete_notin (s : JSSet.t) x : x ∉ s → JSSet.delete s x = s.
Proof.
  unfold JSSet.delete. induction s as [|a s IH]; [done|].
  intros [??]%not_elem_of_cons.
  rewrite filter_cons, decide_True by done. by rewrite IH.
Qed.

Lemma delete_app (s1 s2 : JSSet.t) x :
  JSSet.delete (s1 ++ s2) x = JSSet.delete s1 x ++ JSSet.delete s2 x.
Proof. apply filter_app. Qed.

Lemma delete_head (s : JSSet.t) x : NoDup (x :: s) → JSSet.delete (x :: s) x = s.
Proof.
  intros [??]%NoDup_cons. unfold JSSet.delete.
  rewrite filter_cons, decide_False by tauto. by apply delete_notin.
Qed.

Lemma delete_middle (s1 s2 : JSSet.t) x :
  NoDup (s1 ++ x :: s2) → JSSet.delete (s1 ++ x :: s2) x = s1 ++ s2.
Proof.
  intros (H1 & H2 & H3)%NoDup_app. rewrite delete_app, delete_head by done.
  rewrite delete_notin; [done|]. intros Hx. apply (H2 x Hx). left.
Qed.

Lemma add_delete (s : JSSet.t) x :
  JSSet.add (JSSet.delete s x) x = JSSet.delete s x ++ [x].
Proof.
  unfold JSSet.add, JSSet.has. rewrite bool_decide_false; [done|].
  rewrite elem_of_delete. tauto.
Qed.

(** Moving the newest name to the end changes nothing. *)
Lemma move_last (s : JSSet.t) x :
  NoDup s → last s = Some x → JSSet.add (JSSet.delete s x) x = s.
Proof.
  intros Hnd [l' ->]%last_Some. rewrite add_delete.
  rewrite (delete_middle l' [] x) by done. by rewrite app_nil_r.
Qed.

Lemma NoDup_move (s : JSSet.t) x : NoDup s → NoDup (JSSet.add (JSSet.delete s x) x).
Proof.
  intros Hnd. rewrite add_delete. apply NoDup_app. split_and!.
  - by apply NoDup_delete.
  - intros y Hy ->%list_elem_of_singleton. apply elem_of_delete in Hy. tauto.
  - apply NoDup_singleton.
Qed.

Lemma elem_of_move (s : JSSet.t) x y :
  y ∈ JSSet.add (JSSet.delete s x) x ↔ y ∈ s ∨ y = x.
Proof.
  rewrite add_delete, elem_of_app, elem_of_delete, list_elem_of_singleton.
  destruct (decide (y = x)); tauto.
Qed.

Lemma last_move (s : JSSet.t) x : last (JSSet.add (JSSet.delete s x) x) = Some x.
Proof. rewrite add_delete. apply last_snoc. Qed.

Lemma size_move (s : JSSet.t) x :
  (JSSet.size (JSSet.add (JSSet.delete s x) x) ≤ JSSet.size s + 1)%Z.
Proof.
  unfold JSSet.size. rewrite add_delete, length_app. simpl.
  pose proof (length_delete s x). lia.
Qed.

(** A set that is larger than another has a member outside it. *)
Lemma Forall_elem_of_length (s s' : JSSet.t) :
  NoDup s → Forall (.∈ s') s → length s ≤ length s'.
Proof.
  intros Hnd Hall. apply submseteq_length, NoDup_submseteq; [done|].
  by apply Forall_forall.
Qed.

(** ** Reading the storage *)

Lemma lookupCard_Some m cardName card :
  m !! cardName = Some card → lookupCard m cardName = Some (Card card).
Proof. unfold lookupCard. by intros ->. Qed.

Lemma lookupCard_None m cardName :
  lookupCard m cardName = None ↔ m !! cardName = None ∧ inherited cardName = false.
Proof.
  unfold lookupCard.
  destruct (m !! cardName), (inherited cardName); split; try done; by intros [??].
Qed.

Lemma lookupCard_inherited m cardName :
  m !! cardName = None → inherited cardName = true →
  lookupCard m cardName = Some (Inherited cardName).
Proof. unfold lookupCard. by intros -> ->. Qed.

Lemma lookupCard_insert m cardName card :
  lookupCard (<[cardName := card]> m) cardName = Some (Card card).
Proof. apply lookupCard_Some, lookup_insert_eq. Qed.

Lemma lookupCard_insert_ne m cardName card n :
  cardName ≠ n → lookupCard (<[cardName := card]> m) n = lookupCard m n.
Proof. intros. unfold lookupCard. by rewrite lookup_insert_ne. Qed.

Lemma lookupCard_delete_ne (m : gmap string AdaptiveCard) cardName n :
  cardName ≠ n → lookupCard (delete cardName m) n = lookupCard m n.
Proof. intros. unfold lookupCard. by rewrite lookup_delete_ne. Qed.

(** ** Running the methods *)

Lemma World_eta (w : World) : {| this := this w; console := console w |} = w.
Proof. by destruct w. Qed.

Lemma CardPool_eta (p : CardPool) :
  {| cardPool := cardPool p; cardSet := cardSet p;
     statefulCardSet := statefulCardSet p |} = p.
Proof. by destruct p. Qed.

Ltac run :=
  unfold mbind, M_bind, bind, read, update, console_debug, ret, throw,
    set_cardPool, set_cardSet, set_statefulCardSet; simpl.

Lemma dequeueStatefulCard_run w :
  dequeueStatefulCard w =
    ((if bool_decide (JSSet.size (statefulCardSet (this w)) > CAPACITY_STATEFUL_CARDS)%Z
      then dequeued w else w), inr tt).
Proof.
  unfold dequeueStatefulCard. run. case_bool_decide; [done|]. 
  done.
Qed.

Lemma purgeLoop_run names w :
  (∃ l1 n l2, names = l1 ++ n :: l2 ∧
      Forall (.∈ statefulCardSet (this w)) l1 ∧ (n ∉ statefulCardSet (this w)) ∧
      purgeLoop names w = (purged n w, inr tt)) ∨
  (Forall (.∈ statefulCardSet (this w)) names ∧ purgeLoop names w = (w, inr tt)).
Proof.
  induction names as [|a names IH]; [by right|].
  simpl. run. unfold JSSet.has. case_bool_decide as Ha; simpl.
  - destruct IH as [(l1 & n & l2 & -> & Hl1 & Hn & Hrun)|[Hall Hrun]].
    + left. exists (a :: l1), n, l2. by repeat constructor.
    + right. by repeat constructor.
  - left. exists [], a, names. by repeat constructor.
Qed.

Lemma purgeCard_run w :
  purgeCard w =
    if bool_decide (JSSet.size (cardSet (this w)) > CAPACITY_CARDS)%Z
    then purgeLoop (cardSet (this w)) w else (w, inr tt).
Proof. unfold purgeCard. run. by case_bool_decide. Qed.

Lemma purgeUnusedCard_run w :
  purgeUnusedCard w =
    purgeCard
      (if bool_decide (JSSet.size (statefulCardSet (this w)) > CAPACITY_STATEFUL_CARDS)%Z
       then dequeued w else w).
Proof.
  unfold purgeUnusedCard. unfold mbind, M_bind, bind.
  by rewrite dequeueStatefulCard_run.
Qed.

Lemma markCardInuse_run cardName statefulCard w :
  markCardInuse cardName statefulCard w =
    if bool_decide (is_Some (lookupCard (cardPool (this w)) cardName))
       || bool_decide (is_Some statefulCard)
    then purgeUnusedCard (marked cardName statefulCard w)
    else (w, inr tt).
Proof.
  unfold markCardInuse, marked. unfold mbind, M_bind, bind at 1. simpl.
  destruct (_ || _); [|done].
  destruct statefulCard as [card|]; run.
  - by destruct (lookupCard (cardPool (this w)) cardName).
  - done.
Qed.

Lemma purgeCard_ok w : ∃ w', purgeCard w = (w', inr tt).
Proof.
  rewrite purgeCard_run. case_bool_decide; [|by eauto].
  destruct (purgeLoop_run (cardSet (this w)) w)
    as [(l1 & n & l2 & _ & _ & _ & ->)|[_ ->]]; eauto.
Qed.

Lemma purgeUnusedCard_ok w : ∃ w', purgeUnusedCard w = (w', inr tt).
Proof. rewrite purgeUnusedCard_run. apply purgeCard_ok. Qed.

Lemma markCardInuse_ok cardName statefulCard w :
  ∃ w', markCardInuse cardName statefulCard w = (w', inr tt).
Proof.
  rewrite markCardInuse_run. destruct (_ || _); [|by eauto].
  apply purgeUnusedCard_ok.
Qed.

(** ** The two steps of [purgeUnusedCard] *)

Lemma dequeued_cons w n rest :
  statefulCardSet (this w) = n :: rest → NoDup (statefulCardSet (this w)) →
  dequeued w =
    {| this := {| cardPool := cardPool (this w); cardSet := cardSet (this w);
                  statefulCardSet := rest |};
       console := console w ++ [DequeuedStatefulCard (Some n) rest] |}.
Proof.
  intros Hs Hnd. unfold dequeued. rewrite Hs in *. simpl.
  by rewrite delete_head.
Qed.

(** A stateful set over its capacity has an oldest and a newer member. *)
Lemma over_stateful_capacity (s : JSSet.t) :
  (JSSet.size s > CAPACITY_STATEFUL_CARDS)%Z →
  ∃ n m rest, s = n :: m :: rest.
Proof.
  pose proof CAPACITY_STATEFUL_CARDS_lt. unfold JSSet.size.
  destruct s as [|n [|m rest]]; simpl; [lia..|eauto].
Qed.

Lemma purged_middle w l1 n l2 :
  cardSet (this w) = l1 ++ n :: l2 → NoDup (cardSet (this w)) →
  cardSet (this (purged n w)) = l1 ++ l2.
Proof. intros Hs Hnd. simpl. rewrite Hs in *. by apply delete_middle. Qed.

Lemma purged_wf w n :
  pool_inv (this w) → n ∉ statefulCardSet (this w) → pool_inv (this (purged n w)).
Proof.
  intros (Hnd & Hnds & Hsub & Hget & Hown) Hn. unfold pool_inv. simpl. split_and!.
  - by apply NoDup_delete.
  - done.
  - intros x Hx. apply elem_of_delete. split; [by apply Hsub|congruence].
  - intros x [Hx Hne]%elem_of_delete. rewrite lookupCard_delete_ne by done. auto.
  - intros x [Hne Hx]%lookup_delete_is_Some. rewrite elem_of_delete.
    destruct (Hown x Hx). auto.
Qed.

Lemma dequeued_wf w :
  pool_inv (this w) → pool_inv (this (dequeued w)).
Proof.
  intros (Hnd & Hnds & Hsub & Hget & Hown). unfold pool_inv. simpl.
  split_and!; [done| |intros x Hx; apply Hsub|done..];
    destruct (head _); simpl; try done.
  - by apply NoDup_delete.
  - apply elem_of_delete in Hx. tauto.
Qed.

(** After the first step the stateful set is back within its capacity,
    when it was at most one name over it. *)
Lemma dequeue_step w :
  let w1 := if bool_decide (JSSet.size (statefulCardSet (this w)) > CAPACITY_STATEFUL_CARDS)%Z
            then dequeued w else w in
  pool_inv (this w) → within 1 (this w) →
  pool_inv (this w1) ∧ cardSet (this w1) = cardSet (this w) ∧
  cardPool (this w1) = cardPool (this w) ∧
  (JSSet.size (statefulCardSet (this w1)) ≤ CAPACITY_STATEFUL_CARDS)%Z.
Proof.
  intros w1 Hwf [_ Hsz]. subst w1. case_bool_decide as Hover.
  - split; [by apply dequeued_wf|]. split_and!; [done..|].
    destruct (over_stateful_capacity _ Hover) as (n & m & rest & Hs).
    rewrite (dequeued_cons w n (m :: rest)) by (done || apply Hwf). simpl.
    unfold JSSet.size in *. rewrite Hs in Hsz. simpl in *. lia.
  - split_and!; [done..|lia].
Qed.

(** With the stateful set within its capacity, the second step finds a name
    to purge whenever the pool is over its capacity, and it is not the
    newest one. *)
Lemma purge_step w :
  pool_inv (this w) →
  (JSSet.size (statefulCardSet (this w)) ≤ CAPACITY_STATEFUL_CARDS)%Z →
  (JSSet.size (cardSet (this w)) ≤ CAPACITY_CARDS + 1)%Z →
  ∃ w', purgeCard w = (w', inr tt) ∧ pool_inv (this w') ∧ within 0 (this w') ∧
    ∀ x, last (cardSet (this w)) = Some x →
      last (cardSet (this w')) = Some x ∧
      cardPool (this w') !! x = cardPool (this w) !! x.
Proof.
  intros Hwf Hst Hsz. pose proof CAPACITY_STATEFUL_CARDS_lt as Hcap.
  rewrite purgeCard_run. case_bool_decide as Hover.
  - destruct (purgeLoop_run (cardSet (this w)) w)
      as [(l1 & n & l2 & Hs & Hl1 & Hn & ->)|[Hall _]].
    + exists (purged n w). split; [done|]. split; [by apply purged_wf|].
      pose proof (purged_middle w l1 n l2 Hs (proj1 Hwf)) as Hs'.
      assert (NoDup (l1 ++ n :: l2)) as Hnd by (rewrite <- Hs; apply Hwf).
      split.
      * split; [|simpl; lia]. rewrite Hs'. unfold JSSet.size in *.
        rewrite Hs, length_app in Hsz. rewrite length_app. simpl in *. lia.
      * intros x Hx. rewrite Hs'. rewrite Hs in Hx.
        destruct l2 as [|b l2] using rev_ind.
        -- exfalso. apply NoDup_app in Hnd as (Hnd1 & _ & _).
           pose proof (Forall_elem_of_length _ _ Hnd1 Hl1).
           unfold JSSet.size in *. rewrite Hs, length_app in Hover.
           simpl in *. lia.
        -- clear IHl2. rewrite app_assoc, last_snoc.
           replace (l1 ++ n :: l2 ++ [b]) with ((l1 ++ n :: l2) ++ [b]) in Hx
             by (by rewrite <- app_assoc).
           rewrite last_snoc in Hx.
           split; [done|]. simpl. apply lookup_delete_ne.
           injection Hx as ->. intros ->.
           apply NoDup_app in Hnd as (_ & _ & Hnd2).
           apply NoDup_cons in Hnd2 as [Hn2 _]. apply Hn2.
           apply elem_of_app. right. left.
    + exfalso. pose proof (Forall_elem_of_length _ _ (proj1 Hwf) Hall).
      unfold JSSet.size in *. lia.
  - exists w. split_and!; [done..| |by auto]. split; lia.
Qed.

Lemma purgeUnusedCard_inv w :
  pool_inv (this w) → within 1 (this w) →
  ∃ w', purgeUnusedCard w = (w', inr tt) ∧ pool_inv (this w') ∧ within 0 (this w') ∧
    ∀ x, last (cardSet (this w)) = Some x →
      last (cardSet (this w')) = Some x ∧
      cardPool (this w') !! x = cardPool (this w) !! x.
Proof.
  intros Hwf Hin. rewrite purgeUnusedCard_run.
  destruct (dequeue_step w Hwf Hin) as (Hwf1 & Hcs & Hm & Hst).
  destruct Hin as [Hsz _]. rewrite <- Hcs in Hsz.
  destruct (purge_step _ Hwf1 Hst Hsz) as (w' & Hrun & ? & ? & Hlast).
  exists w'. split_and!; [done..|]. intros x Hx. rewrite <- Hcs, <- Hm in *. auto.
Qed.

(** ** The four ways through [getCard] *)

Lemma getCard_hit cardName cardPayload w found w' :
  lookupCard (cardPool (this w)) cardName = Some found →
  purgeUnusedCard
    (marked cardName None
       {| this := this w; console := console w ++ [HitCachedCard cardName] |})
    = (w', inr tt) →
  getCard cardName cardPayload w
    = (w', inr (lookupCard (cardPool (this w')) cardName)).
Proof.
  intros Hm Hrun. unfold getCard. unfold mbind, M_bind, bind, read. simpl.
  rewrite Hm. unfold console_debug at 1.
  rewrite markCardInuse_run. simpl. rewrite Hm.
  rewrite bool_decide_true by eauto. simpl. by rewrite Hrun.
Qed.

Lemma getCard_miss cardName payload w card w' :
  lookupCard (cardPool (this w)) cardName = None →
  newAdaptiveCard cardName payload = inr card →
  purgeUnusedCard
    (marked cardName None
       {| this := set_cardPool <[cardName := card]> (this w);
          console := console w ++ [AddedCard cardName] |})
    = (w', inr tt) →
  getCard cardName (Some payload) w
    = (w', inr (lookupCard (cardPool (this w')) cardName)).
Proof.
  intros Hm Hnew Hrun. unfold getCard, createCardOnDemand.
  unfold mbind, M_bind, bind, read. simpl. rewrite Hm, Hnew.
  unfold ret at 1, update at 1. simpl.
  rewrite markCardInuse_run. simpl. rewrite lookupCard_insert.
  rewrite bool_decide_true by eauto. simpl. by rewrite Hrun.
Qed.

Lemma getCard_throw cardName payload w e :
  lookupCard (cardPool (this w)) cardName = None →
  newAdaptiveCard cardName payload = inl e →
  getCard cardName (Some payload) w = (w, inl e).
Proof.
  intros Hm Hnew. unfold getCard, createCardOnDemand.
  unfold mbind, M_bind, bind, read. simpl. by rewrite Hm, Hnew.
Qed.

Lemma getCard_absent cardName w :
  lookupCard (cardPool (this w)) cardName = None →
  getCard cardName None w = (w, inr None).
Proof.
  intros Hm. unfold getCard. unfold mbind, M_bind, bind, read. simpl.
  rewrite Hm. unfold ret at 1. rewrite markCardInuse_run. rewrite Hm.
  rewrite bool_decide_false by (by intros [??]). simpl.
  by rewrite Hm.
Qed.

(** ** The invariants hold between calls *)

Lemma marked_wf cardName statefulCard w :
  NoDup (cardSet (this w)) → NoDup (statefulCardSet (this w)) →
  statefulCardSet (this w) ⊆ cardSet (this w) →
  (∀ n, n ≠ cardName → n ∈ cardSet (this w) →
        is_Some (lookupCard (cardPool (this w)) n)) →
  (∀ n, is_Some (cardPool (this w) !! n) →
        (n ∈ cardSet (this w) ∨ n = cardName) ∧ inherited n = false) →
  is_Some (lookupCard (cardPool (this w)) cardName) ∨ is_Some statefulCard →
  pool_inv (this (marked cardName statefulCard w)).
Proof.
  intros Hnd Hnds Hsub Hget Hown Hguard. unfold pool_inv. simpl. split_and!.
  - by apply NoDup_move.
  - destruct statefulCard; [by apply NoDup_move|done].
  - intros x Hx. apply elem_of_move. destruct statefulCard.
    + apply elem_of_move in Hx as [Hx| ->]; auto.
    + auto.
  - intros n Hn. apply elem_of_move in Hn.
    destruct (decide (n = cardName)) as [->|Hne].
    + destruct statefulCard as [card|],
        (lookupCard (cardPool (this w)) cardName) eqn:Hm;
        rewrite ?Hm, ?lookupCard_insert; try by eauto.
      by destruct Hguard as [[??]|[??]].
    + destruct Hn as [Hn|?]; [|done]. specialize (Hget n Hne Hn).
      destruct statefulCard as [card|], (lookupCard (cardPool (this w)) cardName);
        rewrite ?lookupCard_insert_ne by done; done.
  - intros n Hn. rewrite elem_of_move.
    destruct statefulCard as [card|],
      (lookupCard (cardPool (this w)) cardName) eqn:Hm;
      try (destruct (Hown n Hn) as [[?|?] ?]; by auto).
    destruct (decide (n = cardName)) as [->|Hne].
    + apply lookupCard_None in Hm as [_ ?]. auto.
    + rewrite lookup_insert_ne in Hn by done.
      destruct (Hown n Hn) as [[?|?] ?]; by auto.
Qed.

Lemma marked_within cardName statefulCard w :
  within 0 (this w) → within 1 (this (marked cardName statefulCard w)).
Proof.
  intros [Hc Hs]. unfold within. simpl. split.
  - pose proof (size_move (cardSet (this w)) cardName). lia.
  - destruct statefulCard; [|lia].
    pose proof (size_move (statefulCardSet (this w)) cardName). lia.
Qed.

(** [marked_wf] from a world that differs from one between calls in its
    console at most. *)
Lemma marked_inv cardName statefulCard w :
  pool_inv (this w) →
  is_Some (lookupCard (cardPool (this w)) cardName) ∨ is_Some statefulCard →
  pool_inv (this (marked cardName statefulCard w)).
Proof.
  intros (Hnd & Hnds & Hsub & Hget & Hown) Hguard. apply marked_wf; auto.
  intros n Hn. destruct (Hown n Hn). auto.
Qed.

(** The same after [getCard] has stored a new card. *)
Lemma marked_inv_built cardName card w c :
  pool_inv (this w) →
  lookupCard (cardPool (this w)) cardName = None →
  pool_inv (this (marked cardName None
    {| this := set_cardPool <[cardName := card]> (this w); console := c |})).
Proof.
  intros (Hnd & Hnds & Hsub & Hget & Hown) [Hm Hinh]%lookupCard_None.
  apply marked_wf; simpl; try done.
  - intros n Hne Hn. rewrite lookupCard_insert_ne by done. auto.
  - intros n Hn. destruct (decide (n = cardName)) as [->|Hne]; [by auto|].
    rewrite lookup_insert_ne in Hn by done. destruct (Hown n Hn). auto.
  - rewrite lookupCard_insert. eauto.
Qed.

Lemma markCardInuse_inv cardName statefulCard w :
  pool_inv (this w) → within 0 (this w) →
  ∃ w', markCardInuse cardName statefulCard w = (w', inr tt) ∧
    pool_inv (this w') ∧ within 0 (this w').
Proof.
  intros Hwf Hin. rewrite markCardInuse_run.
  destruct (_ || _) eqn:Hguard; [|by eauto].
  destruct (purgeUnusedCard_inv (marked cardName statefulCard w))
    as (w' & Hrun & ? & ? & _); [|by apply marked_within|by eauto].
  apply marked_inv; [done|].
  apply orb_prop in Hguard as [?%bool_decide_eq_true|?%bool_decide_eq_true]; auto.
Qed.

Lemma getCard_inv cardName cardPayload w :
  pool_inv (this w) → within 0 (this w) →
  pool_inv (this (getCard cardName cardPayload w).1) ∧
  within 0 (this (getCard cardName cardPayload w).1).
Proof.
  intros Hwf Hin.
  destruct (lookupCard (cardPool (this w)) cardName) as [found|] eqn:Hm.
  - destruct (purgeUnusedCard_inv (marked cardName None
        {| this := this w; console := console w ++ [HitCachedCard cardName] |}))
      as (w' & Hrun & ? & ? & _).
    + apply marked_inv; simpl; [done|]. rewrite Hm. eauto.
    + by apply marked_within.
    + by rewrite (getCard_hit _ _ _ _ _ Hm Hrun).
  - destruct cardPayload as [payload|]; [|by rewrite getCard_absent].
    destruct (newAdaptiveCard cardName payload) as [e|card] eqn:Hnew;
      [by rewrite (getCard_throw _ _ _ _ Hm Hnew)|].
    destruct (purgeUnusedCard_inv (marked cardName None
        {| this := set_cardPool <[cardName := card]> (this w);
           console := console w ++ [AddedCard cardName] |}))
      as (w' & Hrun & ? & ? & _).
    + by apply marked_inv_built.
    + by apply marked_within.
    + by rewrite (getCard_miss _ _ _ _ _ Hm Hnew Hrun).
Qed.

Lemma call_inv w c :
  pool_inv (this w) → within 0 (this w) →
  pool_inv (this (call w c)) ∧ within 0 (this (call w c)).
Proof.
  intros Hwf Hin. destruct c as [cardName cardPayload|cardName statefulCard]; simpl.
  - by apply getCard_inv.
  - destruct (markCardInuse_inv cardName statefulCard w Hwf Hin)
      as (w' & -> & ? & ?). done.
Qed.

Lemma after_inv cs : pool_inv (this (after cs)) ∧ within 0 (this (after cs)).
Proof.
  unfold after. induction cs as [|c cs IH] using rev_ind.
  - simpl. split.
    + unfold pool_inv, JSSet.empty. simpl.
      split_and!; try apply NoDup_nil_2; [done|by intros n ?%elem_of_nil|].
      intros n. rewrite lookup_empty. by intros [??].
    + pose proof CAPACITY_CARDS_ge. pose proof CAPACITY_STATEFUL_CARDS_lt.
      unfold within, JSSet.size. simpl. lia.
  - rewrite foldl_snoc. destruct IH. by apply call_inv.
Qed.

(** ** [purgeUnusedCard] in general *)

(** Nothing is purged from a pool within its capacities. *)
Lemma purgeUnusedCard_idle w :
  within 0 (this w) → purgeUnusedCard w = (w, inr tt).
Proof.
  intros [Hc Hs]. rewrite purgeUnusedCard_run.
  rewrite bool_decide_false by lia. rewrite purgeCard_run.
  by rewrite bool_decide_false by lia.
Qed.

(** It prints what it dequeues and purges, and nothing else. *)
Lemma purgeUnusedCard_console w w' r :
  purgeUnusedCard w = (w', r) →
  ∃ msgs, console w' = console w ++ msgs ∧ ∀ n, AddedCard n ∉ msgs.
Proof.
  rewrite purgeUnusedCard_run, purgeCard_run.
  set (w1 := if bool_decide _ then dequeued w else w).
  assert (∃ msgs, console w1 = console w ++ msgs ∧ ∀ n, AddedCard n ∉ msgs)
    as (msgs1 & Hc1 & Hm1).
  { subst w1. case_bool_decide.
    - eexists [_]. split; [done|]. intros n [=]%list_elem_of_singleton.
    - exists []. split; [by rewrite app_nil_r|]. intros n ?%elem_of_nil. done. }
  case_bool_decide.
  - destruct (purgeLoop_run (cardSet (this w1)) w1)
      as [(l1 & n & l2 & _ & _ & _ & ->)|[_ ->]]; intros [= <- _].
    + eexists (msgs1 ++ [_]). simpl. rewrite Hc1, <- app_assoc. split; [done|].
      intros m [?|[=]%list_elem_of_singleton]%elem_of_app. by eapply Hm1.
    + eauto.
  - intros [= <- _]. eauto.
Qed.

(** A stateful name that is the newest of both sets stays so, and stays
    stored, whatever the sizes of the sets. *)
Lemma purgeUnusedCard_newest_stateful w x :
  NoDup (cardSet (this w)) → NoDup (statefulCardSet (this w)) →
  last (cardSet (this w)) = Some x → last (statefulCardSet (this w)) = Some x →
  ∃ w', purgeUnusedCard w = (w', inr tt) ∧
    last (cardSet (this w')) = Some x ∧
    last (statefulCardSet (this w')) = Some x ∧
    cardPool (this w') !! x = cardPool (this w) !! x.
Proof.
  intros Hnd Hnds Hc Hs. rewrite purgeUnusedCard_run.
  set (w1 := if bool_decide _ then dequeued w else w).
  assert (cardSet (this w1) = cardSet (this w) ∧
          cardPool (this w1) = cardPool (this w) ∧
          last (statefulCardSet (this w1)) = Some x) as (Hc1 & Hm1 & Hs1).
  { subst w1. case_bool_decide as Hover; [|done].
    destruct (over_stateful_capacity _ Hover) as (n & m & rest & Heq).
    rewrite (dequeued_cons w n (m :: rest)) by done. simpl.
    by rewrite Heq in Hs. }
  rewrite purgeCard_run. case_bool_decide; [|exists w1; by rewrite Hc1, Hm1].
  destruct (purgeLoop_run (cardSet (this w1)) w1)
    as [(l1 & n & l2 & Heq & _ & Hn & ->)|[_ ->]];
    [|exists w1; by rewrite Hc1, Hm1].
  exists (purged n w1). split; [done|].
  assert (n ≠ x) as Hne.
  { intros ->. apply Hn. apply last_Some in Hs1 as [l' ->].
    apply elem_of_app. right. left. }
  rewrite <- Hc1 in Hnd, Hc.
  rewrite (purged_middle w1 l1 n l2 Heq Hnd). rewrite Heq in Hc.
  split_and!; [|done|simpl; by rewrite lookup_delete_ne, Hm1].
  destruct l2 as [|b l2 _] using rev_ind.
  - rewrite last_snoc in Hc. congruence.
  - replace (l1 ++ n :: l2 ++ [b]) with ((l1 ++ n :: l2) ++ [b]) in Hc
      by (by rewrite <- app_assoc).
    rewrite last_snoc in Hc. by rewrite app_assoc, last_snoc.
Qed.

(** ** The eviction pass *)

(** C1. Total-overflow step (lines 71-80).  When the pool holds more names
    than [CAPACITY_CARDS] as the step starts, the step scans [cardSet] from
    the oldest name on and purges exactly the first name that is not in
    [statefulCardSet]: that name leaves [cardSet] (the others keep their
    order) and the storage, and the scan stops.  When every pooled name is
    stateful, nothing is purged and the world, still over capacity, is
    unchanged.  Either way at most one name is purged, and the stateful set
    is not touched. *)
Theorem purgeCard_first_unprotected w :
  NoDup (cardSet (this w)) →
  (JSSet.size (cardSet (this w)) > CAPACITY_CARDS)%Z →
  ∃ w', purgeCard w = (w', inr tt) ∧
    statefulCardSet (this w') = statefulCardSet (this w) ∧
    length (cardSet (this w)) ≤ length (cardSet (this w')) + 1 ∧
    ((∃ l1 n l2,
        cardSet (this w) = l1 ++ n :: l2 ∧
        Forall (.∈ statefulCardSet (this w)) l1 ∧
        (n ∉ statefulCardSet (this w)) ∧
        cardSet (this w') = l1 ++ l2 ∧
        cardPool (this w') = delete n (cardPool (this w)) ∧
        console w' = console w ++ [PurgedNonStatefulCard n (l1 ++ l2)]) ∨
     (Forall (.∈ statefulCardSet (this w)) (cardSet (this w)) ∧ w' = w ∧
      (JSSet.size (cardSet (this w')) > CAPACITY_CARDS)%Z)).
Proof.
  intros Hnd Hover. rewrite purgeCard_run, bool_decide_true by done.
  destruct (purgeLoop_run (cardSet (this w)) w)
    as [(l1 & n & l2 & Heq & Hl1 & Hn & ->)|[Hall ->]].
  - exists (purged n w). pose proof (purged_middle w l1 n l2 Heq Hnd) as Heq'.
    split_and!; [done..| |].
    + rewrite Heq', Heq, !length_app. simpl. lia.
    + left. exists l1, n, l2. split_and!; try done.
      simpl. by rewrite <- Heq'.
  - exists w. split_and!; [done..|lia|]. by right.
Qed.


(** ** Between the calls of a client *)

(** C3 (the code breaks it).  Between completed calls the names in
    [cardSet] should be exactly the keys of the storage.  They are not when
    a client uses the name of a member of [Object.prototype]: on a new pool
    [getCard "toString"], with or without a payload, reads the inherited
    member as a stored card, prints a hit, builds nothing, returns the member
    and leaves the name pooled with no key in the storage;
    [markCardInuse "constructor"] without a card pools that name the same
    way. *)
Theorem inherited_name_pooled_not_stored cardPayload :
  getCard "toString" cardPayload newWorld =
    ({| this := {| cardPool := ∅; cardSet := ["toString"]; statefulCardSet := [] |};
        console := [HitCachedCard "toString"] |},
     inr (Some (Inherited "toString"))) ∧
  markCardInuse "constructor" None newWorld =
    ({| this := {| cardPool := ∅; cardSet := ["constructor"]; statefulCardSet := [] |};
        console := [] |},
     inr tt) ∧
  ¬ (∀ n : CardName,
       n ∈ cardSet (this (after [GetCard "toString" cardPayload])) ↔
       is_Some (cardPool (this (after [GetCard "toString" cardPayload])) !! n)).
Proof.
  pose proof CAPACITY_CARDS_ge. pose proof CAPACITY_STATEFUL_CARDS_lt.
  assert (∀ n (w0 : World),
    this w0 = newCardPool →
    purgeUnusedCard (marked n None w0) = (marked n None w0, inr tt)) as Hidle.
  { intros n w0 Hw0. apply purgeUnusedCard_idle.
    unfold within, JSSet.size. simpl. rewrite Hw0. simpl. lia. }
  assert (getCard "toString" cardPayload newWorld =
    ({| this := {| cardPool := ∅; cardSet := ["toString"]; statefulCardSet := [] |};
        console := [HitCachedCard "toString"] |},
     inr (Some (Inherited "toString")))) as Hget.
  { set (w0 := {| this := this newWorld;
                  console := console newWorld ++ [HitCachedCard "toString"] |}).
    by rewrite (getCard_hit "toString" cardPayload newWorld (Inherited "toString")
                  (marked "toString" None w0) eq_refl (Hidle "toString" w0 eq_refl)). }
  split_and!.
  - done.
  - rewrite markCardInuse_run. simpl. by rewrite Hidle.
  - unfold after. simpl. rewrite Hget. simpl. intros Hdom.
    destruct (proj1 (Hdom "toString")) as [card Hcard]; [left|].
    by rewrite lookup_empty in Hcard.
Qed.

(** C4. When [getCard] returns something, on a hit or after building a card
    from the payload, the name is in [cardSet] once the call, its purge
    included, is over, as the newest name; what is returned is what a read
    of the storage finds under the name, and a card returned is the card
    stored. *)
Theorem getCard_present_is_newest cs cardName cardPayload w' found :
  getCard cardName cardPayload (after cs) = (w', inr (Some found)) →
  cardName ∈ cardSet (this w') ∧
  last (cardSet (this w')) = Some cardName ∧
  lookupCard (cardPool (this w')) cardName = Some found ∧
  ∀ card, found = Card card → cardPool (this w') !! cardName = Some card.
Proof.
  destruct (after_inv cs) as [Hinv Hin]. set (w := after cs) in *.
  assert (∀ w0 w1 : World,
    pool_inv (this (marked cardName None w0)) →
    cardSet (this w0) = cardSet (this w) →
    statefulCardSet (this w0) = statefulCardSet (this w) →
    purgeUnusedCard (marked cardName None w0) = (w1, inr tt) →
    last (cardSet (this w1)) = Some cardName) as Hnewest.
  { intros w0 w1 Hinv0 Hc Hs Hrun.
    destruct (purgeUnusedCard_inv (marked cardName None w0) Hinv0)
      as (w1' & Hrun' & _ & _ & Hlast).
    - apply marked_within. unfold within. by rewrite Hc, Hs.
    - rewrite Hrun in Hrun'. injection Hrun' as <-.
      apply Hlast. simpl. apply last_move. }
  assert (∀ w1 : World,
    last (cardSet (this w1)) = Some cardName →
    (w1, @inr Exn _ (lookupCard (cardPool (this w1)) cardName))
      = (w', inr (Some found)) →
    cardName ∈ cardSet (this w') ∧ last (cardSet (this w')) = Some cardName ∧
    lookupCard (cardPool (this w')) cardName = Some found ∧
    ∀ card, found = Card card → cardPool (this w') !! cardName = Some card)
    as Hend.
  { intros w1 Hlast [= -> Hfound]. split_and!; try done.
    - apply last_Some in Hlast as [l' ->]. apply elem_of_app. right. left.
    - intros card ->. unfold lookupCard in Hfound.
      destruct (cardPool (this w') !! cardName); [congruence|].
      by destruct (inherited cardName). }
  destruct (lookupCard (cardPool (this w)) cardName) as [c|] eqn:Hm.
  - set (w0 := {| this := this w; console := console w ++ [HitCachedCard cardName] |}).
    destruct (purgeUnusedCard_ok (marked cardName None w0)) as [w1 Hrun].
    rewrite (getCard_hit _ _ _ _ _ Hm Hrun). apply Hend.
    apply (Hnewest w0 w1); [|done..].
    apply marked_inv; simpl; [done|]. rewrite Hm. eauto.
  - destruct cardPayload as [payload|]; [|by rewrite getCard_absent].
    destruct (newAdaptiveCard cardName payload) as [e|c] eqn:Hnew;
      [by rewrite (getCard_throw _ _ _ _ Hm Hnew)|].
    set (w0 := {| this := set_cardPool <[cardName := c]> (this w);
                  console := console w ++ [AddedCard cardName] |}).
    destruct (purgeUnusedCard_ok (marked cardName None w0)) as [w1 Hrun].
    rewrite (getCard_miss _ _ _ _ _ Hm Hnew Hrun). apply Hend.
    apply (Hnewest w0 w1); [|done..].
    by apply marked_inv_built.
Qed.

(** C5 (the code breaks it).  A revival should store the card handed in
    whenever the storage has no entry for the name.  It does not for the
    name of a member of [Object.prototype]: on a new pool, whose storage has
    no key at all, [markCardInuse "constructor"] with a stateful card puts
    the name in both sets, but the assignment of line 51 reads the inherited
    member and stores nothing. *)
Theorem inherited_name_not_revived statefulRef :
  cardPool (this newWorld) !! "constructor" = None ∧
  markCardInuse "constructor" (Some statefulRef) newWorld =
    ({| this := {| cardPool := ∅; cardSet := ["constructor"];
                   statefulCardSet := ["constructor"] |};
        console := [] |},
     inr tt).
Proof.
  pose proof CAPACITY_CARDS_ge. pose proof CAPACITY_STATEFUL_CARDS_lt.
  split; [done|]. rewrite markCardInuse_run. simpl.
  rewrite purgeUnusedCard_idle; [done|].
  unfold within, JSSet.size. simpl. lia.
Qed.

(** C6. Whatever argument the constructor was given and whatever calls a
    client made, [cardSet] holds at most [CAPACITY_CARDS + 1] names and
    [statefulCardSet] at most [CAPACITY_STATEFUL_CARDS + 1]: between calls,
    and also at the point of a call where the sets are largest, when
    [purgeUnusedCard] is entered.  The first capacity is the argument (8 when
    omitted) raised to 4, the second is the ceiling of its quarter and at
    least 1. *)
Theorem sizes_within_one_of_capacity cs :
  CAPACITY_CARDS = Z.max 4 (default 8%Z cardPoolCapacity) ∧
  (∃ k : Z, (CAPACITY_CARDS ≤ 4 * k < CAPACITY_CARDS + 4)%Z ∧
            CAPACITY_STATEFUL_CARDS = Z.max 1 k) ∧
  (JSSet.size (cardSet (this (after cs))) ≤ CAPACITY_CARDS + 1)%Z ∧
  (JSSet.size (statefulCardSet (this (after cs))) ≤ CAPACITY_STATEFUL_CARDS + 1)%Z ∧
  ∀ cardName statefulCard,
    (JSSet.size (cardSet (this (marked cardName statefulCard (after cs))))
       ≤ CAPACITY_CARDS + 1)%Z ∧
    (JSSet.size (statefulCardSet (this (marked cardName statefulCard (after cs))))
       ≤ CAPACITY_STATEFUL_CARDS + 1)%Z.
Proof.
  destruct (after_inv cs) as [_ Hin]. split_and!.
  - done.
  - exists CAPACITY_STATEFUL_CARDS. split; [apply CAPACITY_STATEFUL_CARDS_ceil|].
    pose proof CAPACITY_STATEFUL_CARDS_lt. lia.
  - destruct Hin. lia.
  - destruct Hin. lia.
  - intros cardName statefulCard. by apply marked_within.
Qed.

(** C8. When building the card throws on a miss, [getCard] throws the same
    exception and leaves the world as it was: nothing was stored under the
    name, neither set changed, nothing was printed. *)
Theorem getCard_factory_failure w cardName cardPayload e :
  lookupCard (cardPool (this w)) cardName = None →
  newAdaptiveCard cardName cardPayload = inl e →
  ∃ w', getCard cardName (Some cardPayload) w = (w', inl e) ∧
    w' = w ∧
    cardPool (this w') !! cardName = None ∧
    cardSet (this w') = cardSet (this w) ∧
    statefulCardSet (this w') = statefulCardSet (this w).
Proof.
  intros Hm Hnew. exists w. rewrite (getCard_throw _ _ _ _ Hm Hnew).
  by apply lookupCard_None in Hm as [? _].
Qed.

(** C9. When the name is stored and already the newest of [cardSet],
    [markCardInuse] without a stateful card, called twice in a row, leaves
    both sets as they were, members and order (the world is unchanged). *)
Theorem markCardInuse_newest_twice cs x :
  is_Some (cardPool (this (after cs)) !! x) →
  last (cardSet (this (after cs))) = Some x →
  ∃ w1 w2,
    markCardInuse x None (after cs) = (w1, inr tt) ∧
    markCardInuse x None w1 = (w2, inr tt) ∧
    cardSet (this w1) = cardSet (this (after cs)) ∧
    statefulCardSet (this w1) = statefulCardSet (this (after cs)) ∧
    cardSet (this w2) = cardSet (this (after cs)) ∧
    statefulCardSet (this w2) = statefulCardSet (this (after cs)) ∧
    w2 = after cs.
Proof.
  intros Hm Hlast. destruct (after_inv cs) as [(Hnd & _) Hin].
  set (w := after cs) in *.
  assert (markCardInuse x None w = (w, inr tt)) as Hrun.
  { rewrite markCardInuse_run, bool_decide_true
      by (destruct Hm as [c Hc]; rewrite (lookupCard_Some _ _ _ Hc); eauto).
    simpl. assert (marked x None w = w) as ->.
    { unfold marked. rewrite move_last by done.
      by rewrite CardPool_eta, World_eta. }
    by apply purgeUnusedCard_idle. }
  exists w, w. by rewrite Hrun.
Qed.

(** C10. After every completed call, whatever argument the constructor was
    given, [cardSet] holds at most [CAPACITY_CARDS] names and
    [statefulCardSet] at most [CAPACITY_STATEFUL_CARDS].  The reason: the
    stateful capacity is below the capacity of the pool and the dequeue comes
    first, so whenever a call enters [purgeUnusedCard] with [cardSet] over
    its capacity, a pooled name outside the stateful set is there to purge
    once the dequeue is done. *)
Theorem sizes_within_capacity cs :
  (JSSet.size (cardSet (this (after cs))) ≤ CAPACITY_CARDS)%Z ∧
  (JSSet.size (statefulCardSet (this (after cs))) ≤ CAPACITY_STATEFUL_CARDS)%Z ∧
  (CAPACITY_STATEFUL_CARDS < CAPACITY_CARDS)%Z ∧
  ∀ cardName statefulCard,
    (JSSet.size (cardSet (this (marked cardName statefulCard (after cs))))
       ≤ CAPACITY_CARDS)%Z ∨
    ∃ w1 n,
      dequeueStatefulCard (marked cardName statefulCard (after cs)) = (w1, inr tt) ∧
      n ∈ cardSet (this w1) ∧ n ∉ statefulCardSet (this w1).
Proof.
  destruct (after_inv cs) as [(Hnd & Hnds & Hsub & Hdom) Hin].
  pose proof CAPACITY_STATEFUL_CARDS_lt as Hcap.
  split_and!; [destruct Hin; lia..|].
  intros cardName statefulCard.
  set (e := marked cardName statefulCard (after cs)).
  destruct (decide (JSSet.size (cardSet (this e)) ≤ CAPACITY_CARDS)%Z)
    as [|Hover]; [by left|right].
  assert (NoDup (cardSet (this e))) as Hnde by (by apply NoDup_move).
  assert (NoDup (statefulCardSet (this e))) as Hndse.
  { simpl. destruct statefulCard; [by apply NoDup_move|done]. }
  destruct (marked_within cardName statefulCard _ Hin) as [_ Hse]. fold e in Hse.
  rewrite dequeueStatefulCard_run.
  set (w1 := if bool_decide _ then dequeued e else e). exists w1.
  assert (cardSet (this w1) = cardSet (this e) ∧
          (JSSet.size (statefulCardSet (this w1)) ≤ CAPACITY_STATEFUL_CARDS)%Z)
    as [Hc1 Hs1].
  { subst w1. case_bool_decide as Hovers; [|split; [done|lia]].
    destruct (over_stateful_capacity _ Hovers) as (n & m & rest & Heq).
    rewrite (dequeued_cons e n (m :: rest)) by done. split; [done|]. simpl.
    unfold JSSet.size in *. rewrite Heq in Hse. simpl in *. lia. }
  destruct (purgeLoop_run (cardSet (this w1)) w1)
    as [(l1 & n & l2 & Heq & _ & Hn & _)|[Hall _]].
  - exists n. split_and!; [done| |done]. rewrite Heq. apply elem_of_app. right. left.
  - exfalso. rewrite Hc1 in Hall.
    pose proof (Forall_elem_of_length _ _ Hnde Hall).
    unfold JSSet.size in *. lia.
Qed.

(** ** A scenario *)

(** C7. Protection precedence.  On a new pool of capacity 4, hence with one
    stateful slot, a client gets the cards a, b, c and d with payloads, marks
    a with a stateful card, then gets e with a payload: a is still stored
    (and stateful), and b, the oldest name that is not stateful, is purged
    from the storage and from [cardSet]. *)
Theorem protection_precedence pa pb pc pd pe ca cb cc cd ce statefulRef :
  CAPACITY_CARDS = 4%Z →
  newAdaptiveCard "a" pa = inr ca → newAdaptiveCard "b" pb = inr cb →
  newAdaptiveCard "c" pc = inr cc → newAdaptiveCard "d" pd = inr cd →
  newAdaptiveCard "e" pe = inr ce →
  let w := after [GetCard "a" (Some pa); GetCard "b" (Some pb);
                  GetCard "c" (Some pc); GetCard "d" (Some pd);
                  MarkCardInuse "a" (Some statefulRef);
                  GetCard "e" (Some pe)] in
  CAPACITY_STATEFUL_CARDS = 1%Z ∧
  cardPool (this w) !! "a" = Some ca ∧
  cardPool (this w) !! "b" = None ∧
  cardSet (this w) = ["c"; "d"; "a"; "e"] ∧
  statefulCardSet (this w) = ["a"] ∧
  console w = [AddedCard "a"; AddedCard "b"; AddedCard "c"; AddedCard "d";
               AddedCard "e"; PurgedNonStatefulCard "b" ["c"; "d"; "a"; "e"]].
Proof.
  intros Hcap Ha Hb Hc Hd He w. subst w.
  unfold after, call, foldl, getCard, markCardInuse, purgeUnusedCard, purgeCard,
    dequeueStatefulCard, createCardOnDemand, CAPACITY_STATEFUL_CARDS.
  rewrite !Hcap, Ha, Hb, Hc, Hd, He. 
  vm_compute. done.
Qed.

(** * More of the pool

    What follows describes the two public methods path by path and the pool
    as a client sees it over many calls. *)

(** The names that the calls [cs] marked with a stateful card, in order. *)
Definition markedNames (cs : list Call) : list CardName :=
  omap (λ c, match c with
             | MarkCardInuse cardName (Some _) => Some cardName
             | _ => None
             end) cs.

(** One use of a name in a recency list that keeps at most [k] names: the
    name moves to the end and the oldest name goes when the list got longer
    than [k]. *)
Definition recencyStep (k : nat) (s : JSSet.t) (x : CardName) : JSSet.t :=
  let s' := JSSet.add (JSSet.delete s x) x in
  if decide (k < length s') then tail s' else s'.

(** ** Recency lists *)

Lemma length_delete_elem (s : JSSet.t) x :
  NoDup s → x ∈ s → S (length (JSSet.delete s x)) = length s.
Proof.
  intros Hnd (l1 & l2 & ->)%list_elem_of_split.
  rewrite delete_middle, !length_app by done. simpl. lia.
Qed.

Lemma length_move_elem (s : JSSet.t) x :
  NoDup s → x ∈ s → length (JSSet.add (JSSet.delete s x) x) = length s.
Proof.
  intros Hnd Hx. rewrite add_delete, length_app. simpl.
  pose proof (length_delete_elem s x Hnd Hx). lia.
Qed.

Lemma move_new (s : JSSet.t) x : x ∉ s → JSSet.add (JSSet.delete s x) x = s ++ [x].
Proof. intros Hx. by rewrite add_delete, delete_notin. Qed.

Lemma remove_dups_cons (l : list CardName) a :
  remove_dups (a :: l) = if decide (a ∈ l) then remove_dups l else a :: remove_dups l.
Proof. done. Qed.

(** [remove_dups] keeps the last occurrence of each name: it lists the names
    by their last use. *)
Lemma remove_dups_snoc (l : list CardName) x :
  remove_dups (l ++ [x]) = JSSet.delete (remove_dups l) x ++ [x].
Proof.
  induction l as [|a l IH]; [done|].
  rewrite <- app_comm_cons, !remove_dups_cons, IH.
  destruct (decide (a = x)) as [->|Hne].
  - rewrite decide_True by (apply elem_of_app; right; left).
    destruct (decide (x ∈ l)); [done|].
    unfold JSSet.delete. by rewrite filter_cons, decide_False by tauto.
  - destruct (decide (a ∈ l)) as [Ha|Ha].
    + by rewrite decide_True by (apply elem_of_app; by left).
    + rewrite decide_False.
      * unfold JSSet.delete. by rewrite filter_cons, decide_True by done.
      * intros [?|?%list_elem_of_singleton]%elem_of_app; tauto.
Qed.

(** The last [k] names of a list are its suffix of that length. *)
Lemma drop_suffix (k : nat) (l p t : list CardName) :
  l = p ++ t → length t = k `min` length l → drop (length l - k) l = t.
Proof.
  intros -> Hlen. rewrite length_app in *.
  apply drop_app_length'. lia.
Qed.

Lemma recencyStep_drop (k : nat) (s : JSSet.t) x :
  NoDup s →
  recencyStep k (drop (length s - k) s) x =
    drop (length (JSSet.delete s x ++ [x]) - k) (JSSet.delete s x ++ [x]).
Proof.
  intros Hnd. symmetry.
  set (pre := take (length s - k) s). set (t := drop (length s - k) s).
  assert (s = pre ++ t) as Hs by (symmetry; apply take_drop).
  assert (length t = k `min` length s) as Ht by (unfold t; rewrite length_drop; lia).
  assert (length s = length pre + length t) as Hlen by (rewrite Hs at 1; apply length_app).
  assert (NoDup (pre ++ t)) as Hnd' by (by rewrite <- Hs).
  apply NoDup_app in Hnd' as (Hndp & Hdisj & Hndt).
  unfold recencyStep. rewrite Hs, delete_app.
  destruct (decide (x ∈ t)) as [Hxt|Hxt].
  - (* a name among the last [k]: it moves, nothing goes *)
    assert (x ∉ pre) as Hxp by (intros ?; by eapply Hdisj).
    rewrite (delete_notin pre) by done.
    pose proof (length_move_elem t x Hndt Hxt) as Hmove.
    rewrite decide_False by lia. rewrite add_delete in *.
    apply (drop_suffix k _ pre); [by rewrite <- app_assoc|].
    rewrite !length_app in *. simpl in *. lia.
  - rewrite (move_new t), (delete_notin t) by done. simpl.
    assert (length (JSSet.delete pre x) ≤ length pre) by apply length_delete.
    destruct (decide (k < length (t ++ [x]))) as [Hk|Hk];
      rewrite length_app in Hk; simpl in Hk.
    + (* the list is full: the oldest of the last [k] goes *)
      destruct t as [|a t0]; simpl in *.
      * apply (drop_suffix k _ (JSSet.delete pre x ++ [x])); [by rewrite !app_nil_r|].
        simpl. lia.
      * apply (drop_suffix k _ (JSSet.delete pre x ++ [a]));
          [by rewrite <- !app_assoc|]; simpl.
        rewrite ?length_app; simpl; rewrite ?length_app; simpl.
        destruct (decide (x ∈ pre)) as [Hxp|Hxp].
        -- pose proof (length_delete_elem pre x Hndp Hxp). lia.
        -- rewrite (delete_notin pre) by done. lia.
    + (* there is room: the list is the whole history *)
      assert (pre = []) as -> by (apply nil_length_inv; lia).
      apply (drop_suffix k _ []); [done|]. simpl. rewrite length_app. simpl. lia.
Qed.

(** Using the names [ns] in order leaves the [k] most recently used distinct
    names, ordered by their last use. *)
Lemma recencyStep_foldl (k : nat) (ns : list CardName) :
  foldl (recencyStep k) [] ns =
    drop (length (remove_dups ns) - k) (remove_dups ns).
Proof.
  induction ns as [|x ns IH] using rev_ind; [done|].
  rewrite foldl_snoc, IH, remove_dups_snoc.
  apply recencyStep_drop, NoDup_remove_dups.
Qed.

(** ** What a purge can do *)

(** [purgeUnusedCard] leaves the storage and [cardSet] alone or takes one
    name, not stateful afterwards, out of both; it takes one only from a
    [cardSet] over its capacity. *)
Lemma purgeUnusedCard_cases w w' r :
  purgeUnusedCard w = (w', r) →
  (cardPool (this w') = cardPool (this w) ∧ cardSet (this w') = cardSet (this w)) ∨
  ∃ n, n ∈ cardSet (this w) ∧ (n ∉ statefulCardSet (this w')) ∧
    (JSSet.size (cardSet (this w)) > CAPACITY_CARDS)%Z ∧
    cardPool (this w') = delete n (cardPool (this w)) ∧
    cardSet (this w') = JSSet.delete (cardSet (this w)) n.
Proof.
  rewrite purgeUnusedCard_run, purgeCard_run.
  set (w1 := if bool_decide _ then dequeued w else w).
  assert (cardPool (this w1) = cardPool (this w) ∧
          cardSet (this w1) = cardSet (this w)) as [Hm Hc].
  { subst w1. by case_bool_decide. }
  case_bool_decide as Hover; [|intros [= <- _]; by left].
  destruct (purgeLoop_run (cardSet (this w1)) w1)
    as [(l1 & n & l2 & Heq & _ & Hn & ->)|[_ ->]]; intros [= <- _]; [|by left].
  right. exists n. simpl. rewrite <- Hm, <- Hc. split_and!; try done.
  rewrite Heq. apply elem_of_app. right. left.
Qed.

Lemma purgeCard_stateful w w' r :
  purgeCard w = (w', r) → statefulCardSet (this w') = statefulCardSet (this w).
Proof.
  rewrite purgeCard_run. case_bool_decide; [|by intros [= <- _]].
  by destruct (purgeLoop_run (cardSet (this w)) w)
    as [(l1 & n & l2 & _ & _ & _ & ->)|[_ ->]]; intros [= <- _].
Qed.

(** With the stateful set duplicate-free, [purgeUnusedCard] leaves it alone
    or, when it is over its capacity, drops its oldest name. *)
Lemma purgeUnusedCard_stateful w w' r :
  NoDup (statefulCardSet (this w)) →
  purgeUnusedCard w = (w', r) →
  statefulCardSet (this w') =
    if decide (Z.to_nat CAPACITY_STATEFUL_CARDS < length (statefulCardSet (this w)))
    then tail (statefulCardSet (this w)) else statefulCardSet (this w).
Proof.
  intros Hnd. rewrite purgeUnusedCard_run. intros ->%purgeCard_stateful.
  pose proof CAPACITY_STATEFUL_CARDS_lt.
  case_bool_decide as Hover; unfold JSSet.size in Hover.
  - rewrite decide_True by lia.
    destruct (over_stateful_capacity _ Hover) as (n & m & rest & Heq).
    rewrite (dequeued_cons w n (m :: rest)) by done. simpl. by rewrite Heq.
  - by rewrite decide_False by lia.
Qed.

(** Without stateful names the name purged is the oldest one. *)
Lemma purgeUnusedCard_oldest w w' r :
  NoDup (cardSet (this w)) → statefulCardSet (this w) = [] →
  purgeUnusedCard w = (w', r) →
  statefulCardSet (this w') = [] ∧
  cardSet (this w') =
    if decide (Z.to_nat CAPACITY_CARDS < length (cardSet (this w)))
    then tail (cardSet (this w)) else cardSet (this w).
Proof.
  intros Hnd Hs Hrun. pose proof CAPACITY_STATEFUL_CARDS_lt.
  pose proof CAPACITY_CARDS_ge.
  split.
  { rewrite (purgeUnusedCard_stateful _ _ _ ltac:(rewrite Hs; constructor) Hrun).
    rewrite Hs. by case_decide. }
  revert Hrun. rewrite purgeUnusedCard_run, bool_decide_false
    by (rewrite Hs; unfold JSSet.size; simpl; lia).
  rewrite purgeCard_run. case_bool_decide as Hover; unfold JSSet.size in Hover.
  - rewrite decide_True by lia.
    destruct (purgeLoop_run (cardSet (this w)) w)
      as [(l1 & n & l2 & Heq & Hl1 & _ & ->)|[Hall ->]]; intros [= <- _].
    + rewrite Hs in Hl1. destruct l1 as [|a l1].
      * rewrite (purged_middle w [] n l2) by done. by rewrite Heq.
      * apply Forall_cons in Hl1 as [[]%elem_of_nil _].
    + rewrite Hs in Hall. destruct (cardSet (this w)) as [|a l]; simpl in *; [lia|].
      apply Forall_cons in Hall as [[]%elem_of_nil _].
  - rewrite decide_False by lia. by intros [= <- _].
Qed.

(** ** What a call can do *)

(** A call changes nothing, or it enters [purgeUnusedCard] once, with the
    name moved to the end of [cardSet], from a world that differs from the
    one before the call in the console and, when [getCard] built a card, in
    the new entry of the storage. *)
Lemma call_cases w c :
  call w c = w ∨
  ∃ cardName statefulCard w1,
    purgeUnusedCard (marked cardName statefulCard w1) = (call w c, inr tt) ∧
    cardSet (this w1) = cardSet (this w) ∧
    statefulCardSet (this w1) = statefulCardSet (this w) ∧
    (cardPool (this w1) = cardPool (this w) ∨
     ∃ card, lookupCard (cardPool (this w)) cardName = None ∧
       cardPool (this w1) = <[cardName := card]> (cardPool (this w))) ∧
    (is_Some (lookupCard (cardPool (this w1)) cardName) ∨ is_Some statefulCard) ∧
    (c = MarkCardInuse cardName statefulCard ∨
     ∃ cardPayload, statefulCard = None ∧ c = GetCard cardName cardPayload).
Proof.
  destruct c as [cardName cardPayload|cardName statefulCard]; simpl.
  - destruct (lookupCard (cardPool (this w)) cardName) as [found|] eqn:Hm.
    + set (w1 := {| this := this w; console := console w ++ [HitCachedCard cardName] |}).
      destruct (purgeUnusedCard_ok (marked cardName None w1)) as [w' Hrun].
      rewrite (getCard_hit _ _ _ _ _ Hm Hrun). right.
      exists cardName, None, w1. simpl. rewrite Hm. split_and!; eauto.
    + destruct cardPayload as [payload|]; [|left; by rewrite getCard_absent].
      destruct (newAdaptiveCard cardName payload) as [e|card] eqn:Hnew;
        [left; by rewrite (getCard_throw _ _ _ _ Hm Hnew)|].
      set (w1 := {| this := set_cardPool <[cardName := card]> (this w);
                    console := console w ++ [AddedCard cardName] |}).
      destruct (purgeUnusedCard_ok (marked cardName None w1)) as [w' Hrun].
      rewrite (getCard_miss _ _ _ _ _ Hm Hnew Hrun). right.
      exists cardName, None, w1. simpl. rewrite lookupCard_insert.
      split_and!; eauto.
  - rewrite markCardInuse_run. destruct (_ || _) eqn:Hguard; [|by left].
    destruct (purgeUnusedCard_ok (marked cardName statefulCard w)) as [w' Hrun].
    rewrite Hrun. right. exists cardName, statefulCard, w. split_and!; eauto.
    apply orb_prop in Hguard as [?%bool_decide_eq_true|?%bool_decide_eq_true]; auto.
Qed.

(** The storages before and after a call are both part of one storage: the
    one the call purges from. *)
Lemma call_storage w c :
  ∃ m : gmap string AdaptiveCard,
    cardPool (this w) ⊆ m ∧
    (cardPool (this (call w c)) = m ∨ ∃ n, cardPool (this (call w c)) = delete n m).
Proof.
  destruct (call_cases w c)
    as [->|(cardName & statefulCard & w1 & Hrun & _ & _ & Hw1 & _ & _)];
    [exists (cardPool (this w)); auto|].
  exists (cardPool (this (marked cardName statefulCard w1))). split.
  - transitivity (cardPool (this w1)).
    + destruct Hw1 as [->|(card & [Hm _]%lookupCard_None & ->)];
        [done|by apply insert_subseteq].
    + simpl. destruct statefulCard as [card|]; [|done].
      destruct (lookupCard (cardPool (this w1)) cardName) eqn:Hm; [done|].
      apply lookupCard_None in Hm as [Hm _]. by apply insert_subseteq.
  - destruct (purgeUnusedCard_cases _ _ _ Hrun) as [[-> _]|(n & _ & _ & _ & -> & _)]; eauto.
Qed.

(** The name a call is about. *)
Definition callName (c : Call) : CardName :=
  match c with
  | GetCard cardName _ => cardName
  | MarkCardInuse cardName _ => cardName
  end.

(** X6. What a call does to the storage, in any world.  It never replaces a
    stored card, not even [markCardInuse] given another card for a stored
    name: a name stored before and after the call has the same card.  It
    takes at most one name out of the storage.  And it stores nothing under
    a name other than its own. *)
Theorem call_keeps_cards w c :
  (∀ n x y,
     cardPool (this w) !! n = Some x → cardPool (this (call w c)) !! n = Some y →
     x = y) ∧
  (∀ n1 n2,
     is_Some (cardPool (this w) !! n1) → cardPool (this (call w c)) !! n1 = None →
     is_Some (cardPool (this w) !! n2) → cardPool (this (call w c)) !! n2 = None →
     n1 = n2) ∧
  (∀ n,
     cardPool (this w) !! n = None → is_Some (cardPool (this (call w c)) !! n) →
     n = callName c).
Proof.
  destruct (call_storage w c) as (m & Hsub & Hm). split_and!.
  - intros n x y Hx Hy. apply (lookup_weaken _ _ _ _ Hx) in Hsub.
    destruct Hm as [Heq|[k Heq]]; rewrite Heq in Hy.
    + congruence.
    + apply lookup_delete_Some in Hy as [_ Hy]. congruence.
  - intros n1 n2 [x1 H1] Hn1 [x2 H2] Hn2.
    apply (lookup_weaken _ _ _ _ H1) in Hsub as H1'.
    apply (lookup_weaken _ _ _ _ H2) in Hsub as H2'.
    destruct Hm as [Heq|[k Heq]]; rewrite Heq in Hn1, Hn2; [congruence|].
    apply lookup_delete_None in Hn1 as [?|?], Hn2 as [?|?]; congruence.
  - clear m Hsub Hm. intros n Hn [y Hy].
    destruct (call_cases w c)
      as [Heq|(cardName & statefulCard & w1 & Hrun & _ & _ & Hw1 & _ & Hc)];
      [rewrite Heq in Hy; congruence|].
    assert (callName c = cardName) as ->
      by (by destruct Hc as [->|(? & _ & ->)]).
    destruct (decide (n = cardName)) as [|Hne]; [done|exfalso].
    assert (cardPool (this (marked cardName statefulCard w1)) !! n = None) as Hmid.
    { assert (cardPool (this w1) !! n = None) as Hn1.
      { destruct Hw1 as [->|(card & _ & ->)]; [done|by rewrite lookup_insert_ne]. }
      simpl. destruct statefulCard as [card|]; [|done].
      destruct (lookupCard (cardPool (this w1)) cardName);
        [done|by rewrite lookup_insert_ne]. }
    destruct (purgeUnusedCard_cases _ _ _ Hrun) as [[Heq _]|(k & _ & _ & _ & Heq & _)];
      rewrite Heq in Hy.
    + congruence.
    + apply lookup_delete_Some in Hy as [_ Hy]. congruence.
Qed.

(** ** [getCard], path by path *)

(** Touching a pooled name between calls purges nothing. *)
Lemma purgeUnusedCard_touched cardName w0 w :
  pool_inv (this w) → within 0 (this w) →
  cardSet (this w0) = cardSet (this w) →
  statefulCardSet (this w0) = statefulCardSet (this w) →
  cardName ∈ cardSet (this w) →
  purgeUnusedCard (marked cardName None w0) = (marked cardName None w0, inr tt).
Proof.
  intros (Hnd & _) [Hc Hs] Hc0 Hs0 Hin. apply purgeUnusedCard_idle.
  unfold within, JSSet.size in *. simpl. rewrite Hc0, Hs0.
  by rewrite length_move_elem.
Qed.

(** A stored name is a pooled name, between the calls of a client. *)
Lemma stored_pooled p n card :
  pool_inv p → cardPool p !! n = Some card → n ∈ cardSet p.
Proof. intros (_ & _ & _ & _ & Hown) Hn. apply Hown. eauto. Qed.

(** A name under which a read of the storage finds nothing is not pooled. *)
Lemma unknown_not_pooled p n :
  pool_inv p → lookupCard (cardPool p) n = None → n ∉ cardSet p.
Proof.
  intros (_ & _ & _ & Hget & _) Hn Hin. destruct (Hget n Hin) as [? Hsome].
  congruence.
Qed.

(** X1. Without a payload [getCard] is a read of the storage: between the
    calls of a client it returns what [this.cardPool[cardName]] found before
    the call (a stored card, a member of [Object.prototype], or nothing),
    never throws and never changes the stateful set; and it leaves the
    storage as it is, unless the name is that of a member of
    [Object.prototype] and was not pooled yet. *)
Theorem getCard_without_payload cs cardName :
  ∃ w', getCard cardName None (after cs)
          = (w', inr (lookupCard (cardPool (this (after cs))) cardName)) ∧
    statefulCardSet (this w') = statefulCardSet (this (after cs)) ∧
    (cardName ∈ cardSet (this (after cs)) ∨ inherited cardName = false →
     cardPool (this w') = cardPool (this (after cs))).
Proof.
  destruct (after_inv cs) as [Hwf Hin]. set (w := after cs) in *.
  destruct (lookupCard (cardPool (this w)) cardName) as [found|] eqn:Hm;
    [|exists w; by rewrite getCard_absent].
  set (w0 := {| this := this w; console := console w ++ [HitCachedCard cardName] |}).
  assert (pool_inv (this (marked cardName None w0))) as Hinv0.
  { apply marked_inv; simpl; [done|]. rewrite Hm. eauto. }
  destruct (purgeUnusedCard_inv _ Hinv0 (marked_within cardName None w0 Hin))
    as (w' & Hrun & _ & _ & Hlast).
  destruct (Hlast cardName) as [_ Hsame]; [simpl; apply last_move|].
  exists w'. rewrite (getCard_hit _ _ _ _ _ Hm Hrun). split_and!.
  - do 2 f_equal. rewrite <- Hm. unfold lookupCard. by rewrite Hsame.
  - destruct Hinv0 as (_ & Hnds & _), Hin as [_ Hs].
    rewrite (purgeUnusedCard_stateful _ _ _ Hnds Hrun). simpl.
    unfold JSSet.size in Hs. pose proof CAPACITY_STATEFUL_CARDS_lt.
    by rewrite decide_False by lia.
  - intros Hpooled.
    assert (cardName ∈ cardSet (this w)) as Hc.
    { destruct Hpooled as [|Hinh]; [done|].
      unfold lookupCard in Hm. rewrite Hinh in Hm.
      destruct (cardPool (this w) !! cardName) as [card|] eqn:Hown; [|done].
      by apply (stored_pooled _ _ card). }
    rewrite (purgeUnusedCard_touched cardName w0 w) in Hrun by done.
    by injection Hrun as <-.
Qed.

(** X2. [markCardInuse] without a stateful card, between the calls of a
    client.  A stored name is a pooled name; for a pooled name the call
    moves the name to the end of [cardSet] and changes nothing else, purging
    and printing nothing; for a name under which a read of the storage finds
    nothing it does nothing at all. *)
Theorem markCardInuse_touch cs cardName :
  (is_Some (cardPool (this (after cs)) !! cardName) →
   cardName ∈ cardSet (this (after cs))) ∧
  (cardName ∈ cardSet (this (after cs)) →
   markCardInuse cardName None (after cs) =
     ({| this := set_cardSet (λ s, JSSet.delete s cardName ++ [cardName])
                   (this (after cs));
         console := console (after cs) |},
      inr tt)) ∧
  (lookupCard (cardPool (this (after cs))) cardName = None →
   markCardInuse cardName None (after cs) = (after cs, inr tt)).
Proof.
  destruct (after_inv cs) as [Hwf Hin]. set (w := after cs) in *. split_and!.
  - intros [card Hcard]. by apply (stored_pooled _ _ card).
  - intros Hc. rewrite markCardInuse_run.
    rewrite bool_decide_true by (by apply Hwf). simpl.
    rewrite (purgeUnusedCard_touched _ _ w) by done.
    unfold marked, set_cardSet. by rewrite add_delete.
  - intros Hm. rewrite markCardInuse_run, Hm.
    by rewrite !bool_decide_false by (by intros [??]).
Qed.

(** X3. A hit ignores the payload: when the name is stored, [getCard]
    returns the stored card whatever payload comes with the call, builds
    nothing (even from a payload that would make the builder throw), moves
    the name to the end of [cardSet], prints the hit and changes nothing
    else. *)
Theorem getCard_hit_ignores_payload cs cardName cardPayload card :
  cardPool (this (after cs)) !! cardName = Some card →
  getCard cardName cardPayload (after cs) =
    ({| this := set_cardSet (λ s, JSSet.delete s cardName ++ [cardName])
                  (this (after cs));
        console := console (after cs) ++ [HitCachedCard cardName] |},
     inr (Some (Card card))).
Proof.
  intros Hm. destruct (after_inv cs) as [Hwf Hin]. set (w := after cs) in *.
  set (w0 := {| this := this w; console := console w ++ [HitCachedCard cardName] |}).
  assert (purgeUnusedCard (marked cardName None w0)
            = (marked cardName None w0, inr tt)) as Hrun.
  { apply (purgeUnusedCard_touched _ _ w); try done.
    by apply (stored_pooled _ _ card). }
  rewrite (getCard_hit _ _ _ _ _ (lookupCard_Some _ _ _ Hm) Hrun).
  unfold marked, set_cardSet. rewrite add_delete. simpl.
  by rewrite (lookupCard_Some _ _ _ Hm).
Qed.

(** X4. A miss in a pool with room: when a read of the storage finds nothing
    under the name (no stored card, no member of [Object.prototype]), the
    builder succeeds and the pool is below its capacity, [getCard] stores
    the new card, appends the name to [cardSet], purges nothing and returns
    the card. *)
Theorem getCard_builds_with_room cs cardName cardPayload card :
  lookupCard (cardPool (this (after cs))) cardName = None →
  newAdaptiveCard cardName cardPayload = inr card →
  (JSSet.size (cardSet (this (after cs))) < CAPACITY_CARDS)%Z →
  getCard cardName (Some cardPayload) (after cs) =
    ({| this := {| cardPool := <[cardName := card]> (cardPool (this (after cs)));
                   cardSet := cardSet (this (after cs)) ++ [cardName];
                   statefulCardSet := statefulCardSet (this (after cs)) |};
        console := console (after cs) ++ [AddedCard cardName] |},
     inr (Some (Card card))).
Proof.
  intros Hm Hnew Hroom.
  destruct (after_inv cs) as [Hinv [Hc Hs]].
  set (w := after cs) in *.
  pose proof (unknown_not_pooled _ _ Hinv Hm) as Hnotin.
  set (w0 := {| this := set_cardPool <[cardName := card]> (this w);
                console := console w ++ [AddedCard cardName] |}).
  assert (purgeUnusedCard (marked cardName None w0)
            = (marked cardName None w0, inr tt)) as Hrun.
  { apply purgeUnusedCard_idle. unfold within, JSSet.size in *. simpl.
    rewrite move_new, length_app by done. simpl. lia. }
  rewrite (getCard_miss _ _ _ _ _ Hm Hnew Hrun).
  unfold marked. rewrite move_new by done. simpl. by rewrite lookupCard_insert.
Qed.

(** X5. A miss in a full pool: when a read of the storage finds nothing
    under the name, the builder succeeds and the pool is at its capacity,
    there is an oldest name [n] of [cardSet] that is not stateful, and
    [getCard] stores the new card, purges [n] and only [n] from the storage
    and from [cardSet], where the new name is now the newest, and returns
    the new card. *)
Theorem getCard_builds_when_full cs cardName cardPayload card :
  lookupCard (cardPool (this (after cs))) cardName = None →
  newAdaptiveCard cardName cardPayload = inr card →
  JSSet.size (cardSet (this (after cs))) = CAPACITY_CARDS →
  ∃ l1 n l2,
    cardSet (this (after cs)) = l1 ++ n :: l2 ∧
    Forall (.∈ statefulCardSet (this (after cs))) l1 ∧
    (n ∉ statefulCardSet (this (after cs))) ∧
    getCard cardName (Some cardPayload) (after cs) =
      ({| this := {| cardPool :=
                       delete n (<[cardName := card]> (cardPool (this (after cs))));
                     cardSet := l1 ++ l2 ++ [cardName];
                     statefulCardSet := statefulCardSet (this (after cs)) |};
          console := console (after cs) ++
            [AddedCard cardName;
             PurgedNonStatefulCard n (l1 ++ l2 ++ [cardName])] |},
       inr (Some (Card card))).
Proof.
  intros Hm Hnew Hfull.
  destruct (after_inv cs) as [Hinv [Hc Hs]].
  pose proof Hinv as (Hnd & Hnds & _).
  pose proof CAPACITY_STATEFUL_CARDS_lt as Hcap.
  set (w := after cs) in *.
  pose proof (unknown_not_pooled _ _ Hinv Hm) as Hnotin.
  set (w0 := {| this := set_cardPool <[cardName := card]> (this w);
                console := console w ++ [AddedCard cardName] |}).
  set (e := marked cardName None w0).
  assert (cardSet (this e) = cardSet (this w) ++ [cardName]) as Hce
    by (simpl; by rewrite move_new).
  assert (NoDup (cardSet (this e))) as Hnde by (simpl; by apply NoDup_move).
  assert (purgeUnusedCard e = purgeLoop (cardSet (this e)) e) as Hpurge.
  { rewrite purgeUnusedCard_run, bool_decide_false by (simpl; lia).
    rewrite purgeCard_run, bool_decide_true; [done|].
    rewrite Hce. unfold JSSet.size in *. rewrite length_app. simpl. lia. }
  destruct (purgeLoop_run (cardSet (this e)) e)
    as [(l1 & n & l2' & Heq & Hl1 & Hn & Hloop)|[Hall _]].
  - destruct l2' as [|b l2 _] using rev_ind.
    + (* the newest name is not the one purged *)
      exfalso. rewrite Hce in Heq. apply app_inj_tail in Heq as [Heq _].
      rewrite <- Heq in Hl1.
      pose proof (Forall_elem_of_length _ _ Hnd Hl1). simpl in *.
      unfold JSSet.size in *. lia.
    + rewrite Hce in Heq.
      replace (l1 ++ n :: l2 ++ [b]) with ((l1 ++ n :: l2) ++ [b]) in Heq
        by (by rewrite <- app_assoc).
      apply app_inj_tail in Heq as [Heq <-].
      exists l1, n, l2. split_and!; try done.
      assert (purgeUnusedCard e = (purged n e, inr tt)) as Hrun by congruence.
      rewrite (getCard_miss _ _ _ _ _ Hm Hnew Hrun).
      assert (cardSet (this (purged n e)) = l1 ++ l2 ++ [cardName]) as Hcs.
      { apply (purged_middle e l1 n (l2 ++ [cardName])); [|done].
        by rewrite Hce, Heq, <- app_assoc. }
      assert (n ≠ cardName) as Hne.
      { intros ->. apply Hnotin. rewrite Heq. apply elem_of_app. right. left. }
      unfold purged in *. simpl in *. rewrite Hcs.
      rewrite lookupCard_delete_ne, lookupCard_insert by done.
      by rewrite <- app_assoc.
  - exfalso. rewrite Hce in Hall. apply Forall_app in Hall as [Hall _].
    pose proof (Forall_elem_of_length _ _ Hnd Hall). simpl in *.
    unfold JSSet.size in *. lia.
Qed.

(** X13. [getCard] throws exactly when a read of the storage finds nothing
    under the name, a payload is given and the builder throws on it; the
    exception is the builder's and the world is the one before the call. *)
Theorem getCard_throws_iff w cardName cardPayload w' e :
  getCard cardName cardPayload w = (w', inl e) ↔
  w' = w ∧ lookupCard (cardPool (this w)) cardName = None ∧
  ∃ payload, cardPayload = Some payload ∧ newAdaptiveCard cardName payload = inl e.
Proof.
  split.
  - destruct (lookupCard (cardPool (this w)) cardName) as [found|] eqn:Hm.
    + set (w0 := {| this := this w; console := console w ++ [HitCachedCard cardName] |}).
      destruct (purgeUnusedCard_ok (marked cardName None w0)) as [w1 Hrun].
      by rewrite (getCard_hit _ _ _ _ _ Hm Hrun).
    + destruct cardPayload as [payload|]; [|by rewrite getCard_absent].
      destruct (newAdaptiveCard cardName payload) as [e'|card] eqn:Hnew.
      * rewrite (getCard_throw _ _ _ _ Hm Hnew). intros [= <- <-]. eauto.
      * set (w0 := {| this := set_cardPool <[cardName := card]> (this w);
                      console := console w ++ [AddedCard cardName] |}).
        destruct (purgeUnusedCard_ok (marked cardName None w0)) as [w1 Hrun].
        by rewrite (getCard_miss _ _ _ _ _ Hm Hnew Hrun).
  - intros (-> & Hm & payload & -> & Hnew). by apply getCard_throw.
Qed.

(** ** The pool over one call *)

Lemma after_snoc cs c : after (cs ++ [c]) = call (after cs) c.
Proof. unfold after. by rewrite foldl_snoc. Qed.

Lemma length_move (s : JSSet.t) x :
  NoDup s →
  length s ≤ length (JSSet.add (JSSet.delete s x) x) ≤ length s + 1.
Proof.
  intros Hnd. destruct (decide (x ∈ s)).
  - rewrite length_move_elem by done. lia.
  - rewrite move_new, length_app by done. simpl. lia.
Qed.

(** X7. Between the calls of a client the pool never shrinks: a call leaves
    as many names in [cardSet] as there were, or one more.  A name is purged
    only to make room for a new one. *)
Theorem call_never_shrinks cs c :
  length (cardSet (this (after cs))) ≤ length (cardSet (this (call (after cs) c)))
    ≤ length (cardSet (this (after cs))) + 1.
Proof.
  destruct (after_inv cs) as [(Hnd & _) [Hc _]]. set (w := after cs) in *.
  destruct (call_cases w c)
    as [->|(cardName & statefulCard & w1 & Hrun & Hc1 & _)]; [lia|].
  pose proof (length_move (cardSet (this w)) cardName Hnd) as Hmove.
  destruct (purgeUnusedCard_cases _ _ _ Hrun)
    as [[_ Heq]|(n & Hn & _ & Hover & _ & Heq)];
    rewrite Heq; simpl in *; rewrite Hc1 in *; [done|].
  pose proof (length_delete_elem _ n (NoDup_move _ cardName Hnd) Hn).
  unfold JSSet.size in *. lia.
Qed.

(** The stateful set over one call, between the calls of a client. *)
Lemma call_stateful w c :
  pool_inv (this w) → within 0 (this w) →
  statefulCardSet (this (call w c)) =
    match c with
    | MarkCardInuse cardName (Some _) =>
        recencyStep (Z.to_nat CAPACITY_STATEFUL_CARDS) (statefulCardSet (this w)) cardName
    | _ => statefulCardSet (this w)
    end.
Proof.
  intros (_ & Hnds & _) [_ Hs].
  assert (∀ cardName w1 w',
    statefulCardSet (this w1) = statefulCardSet (this w) →
    purgeUnusedCard (marked cardName None w1) = (w', inr tt) →
    statefulCardSet (this w') = statefulCardSet (this w)) as Hsame.
  { intros cardName w1 w' Hs1 Hrun.
    assert (NoDup (statefulCardSet (this (marked cardName None w1)))) as Hnd1
      by (simpl; by rewrite Hs1).
    rewrite (purgeUnusedCard_stateful _ _ _ Hnd1 Hrun). simpl. rewrite Hs1. unfold JSSet.size in Hs. by rewrite decide_False by lia. }
  destruct c as [cardName cardPayload|cardName [card|]].
  - destruct (call_cases w (GetCard cardName cardPayload))
      as [->|(n & sc & w1 & Hrun & _ & Hs1 & _ & _ & [[=]|(? & -> & _)])]; [done|].
    by apply (Hsame n w1).
  - simpl. rewrite markCardInuse_run.
    rewrite (bool_decide_true (is_Some (Some card))), orb_true_r by eauto.
    destruct (purgeUnusedCard_ok (marked cardName (Some card) w)) as [w' Hrun].
    rewrite Hrun. simpl.
    assert (NoDup (statefulCardSet (this (marked cardName (Some card) w)))) as Hnd1
      by (simpl; by apply NoDup_move).
    by rewrite (purgeUnusedCard_stateful _ _ _ Hnd1 Hrun).
  - destruct (call_cases w (MarkCardInuse cardName None))
      as [->|(n & sc & w1 & Hrun & _ & Hs1 & _ & _ & [[= _ <-]|(? & -> & _)])];
      [done|..]; by apply (Hsame n w1).
Qed.

(** X8. Only [markCardInuse] with a stateful card grants or revokes
    protection: between the calls of a client, [getCard] (hit, miss or
    throw) and [markCardInuse] without a card leave the stateful set as it
    is. *)
Theorem getCard_keeps_stateful cs cardName cardPayload :
  statefulCardSet (this (getCard cardName cardPayload (after cs)).1)
    = statefulCardSet (this (after cs)) ∧
  statefulCardSet (this (markCardInuse cardName None (after cs)).1)
    = statefulCardSet (this (after cs)).
Proof.
  destruct (after_inv cs) as [Hwf Hin]. split.
  - apply (call_stateful _ (GetCard cardName cardPayload) Hwf Hin).
  - apply (call_stateful _ (MarkCardInuse cardName None) Hwf Hin).
Qed.

(** X9. Marking protects at once: between the calls of a client,
    [markCardInuse] with a stateful card leaves the name the newest of
    [cardSet] and of [statefulCardSet], so the name is neither the one
    dequeued nor the one purged by this call.  The given card is stored
    under the name when a read of the storage found nothing there;
    otherwise the storage keeps what it had under the name: the card that
    was stored, or no card for the name of a member of
    [Object.prototype]. *)
Theorem markCardInuse_protects cs cardName statefulCard :
  ∃ w', markCardInuse cardName (Some statefulCard) (after cs) = (w', inr tt) ∧
    last (cardSet (this w')) = Some cardName ∧
    last (statefulCardSet (this w')) = Some cardName ∧
    cardPool (this w') !! cardName
      = match lookupCard (cardPool (this (after cs))) cardName with
        | None => Some statefulCard
        | Some _ => cardPool (this (after cs)) !! cardName
        end.
Proof.
  destruct (after_inv cs) as [(Hnd & Hnds & _) _]. set (w := after cs) in *.
  rewrite markCardInuse_run.
  rewrite (bool_decide_true (is_Some (Some statefulCard))), orb_true_r by eauto.
  destruct (purgeUnusedCard_newest_stateful (marked cardName (Some statefulCard) w)
              cardName) as (w' & Hrun & Hc & Hs & Hm); simpl;
    [by apply NoDup_move..|apply last_move|apply last_move|].
  exists w'. split_and!; try done. rewrite Hm. simpl.
  destruct (lookupCard (cardPool (this w)) cardName) eqn:Heq; simpl;
    [done|apply lookup_insert_eq].
Qed.

(** A name stored before and after a call has the same card. *)
Lemma call_lookup_agree w c n x y :
  cardPool (this w) !! n = Some x → cardPool (this (call w c)) !! n = Some y →
  x = y.
Proof.
  destruct (call_storage w c) as (m & Hsub & Hm). intros Hx Hy.
  apply (lookup_weaken _ _ _ _ Hx) in Hsub.
  destruct Hm as [Heq|[k Heq]]; rewrite Heq in Hy; [congruence|].
  apply lookup_delete_Some in Hy as [_ Hy]. congruence.
Qed.

(** X10. A call revokes the protection of the oldest stateful name at most:
    between the calls of a client, a stateful name that is not the oldest
    one is still stateful after any call, a read of the storage still finds
    something under it, and the storage has under it what it had: the same
    card, or no card for the name of a member of [Object.prototype]. *)
Theorem stateful_survives cs c n :
  n ∈ statefulCardSet (this (after cs)) →
  head (statefulCardSet (this (after cs))) ≠ Some n →
  n ∈ statefulCardSet (this (call (after cs) c)) ∧
  is_Some (lookupCard (cardPool (this (call (after cs) c))) n) ∧
  cardPool (this (call (after cs) c)) !! n = cardPool (this (after cs)) !! n.
Proof.
  intros Hn Hhead.
  destruct (after_inv cs) as [Hwf Hin].
  destruct (after_inv (cs ++ [c])) as [(_ & _ & Hsub' & Hget' & Hown') _].
  rewrite after_snoc in *. set (w := after cs) in *.
  assert (n ∈ statefulCardSet (this (call w c))) as Hn'.
  { rewrite (call_stateful w c Hwf Hin).
    destruct c as [?|cardName [card|]]; try done.
    destruct Hwf as (_ & Hnds & _), Hin as [_ Hs]. unfold recencyStep.
    pose proof CAPACITY_STATEFUL_CARDS_lt. unfold JSSet.size in Hs.
    case_decide as Hover; [|apply elem_of_move; by left].
    destruct (decide (cardName ∈ statefulCardSet (this w))) as [Hin|Hnotin].
    - rewrite length_move_elem in Hover by done. lia.
    - rewrite move_new by done.
      destruct (statefulCardSet (this w)) as [|h t]; [by apply elem_of_nil in Hn|].
      simpl in *. apply elem_of_app. left.
      apply elem_of_cons in Hn as [->|?]; [done|done]. }
  split; [done|].
  assert (is_Some (lookupCard (cardPool (this (call w c))) n)) as Hfound'
    by (by apply Hget', Hsub').
  split; [done|].
  assert (is_Some (lookupCard (cardPool (this w)) n)) as Hfound.
  { destruct Hwf as (_ & _ & Hsub & Hget & _). by apply Hget, Hsub. }
  destruct (cardPool (this w) !! n) as [x|] eqn:Hx,
    (cardPool (this (call w c)) !! n) as [y|] eqn:Hy; try done.
  - f_equal. symmetry. by apply (call_lookup_agree w c n).
  - (* a card stored before the call is not lost: the name is no member of
       [Object.prototype], so the read after the call found the card *)
    exfalso. destruct Hwf as (_ & _ & _ & _ & Hown).
    destruct (Hown n) as [_ Hinh]; [by rewrite Hx|].
    destruct Hfound' as [? Hsome]. unfold lookupCard in Hsome.
    by rewrite Hy, Hinh in Hsome.
  - (* no card appears under the name of a member of [Object.prototype] *)
    exfalso. destruct (Hown' n) as [_ Hinh]; [by rewrite Hy|].
    destruct Hfound as [? Hsome]. unfold lookupCard in Hsome.
    by rewrite Hx, Hinh in Hsome.
Qed.

(** ** The pool over many calls *)

(** X12. The stateful set is a recency list of its own: after any calls of
    a client it holds the [CAPACITY_STATEFUL_CARDS] distinct names most
    recently marked with a stateful card, ordered by their last mark;
    calls of [getCard] and marks without a card in between change nothing
    in it. *)
Theorem stateful_most_recently_marked cs :
  statefulCardSet (this (after cs)) =
    drop (length (remove_dups (markedNames cs)) - Z.to_nat CAPACITY_STATEFUL_CARDS)
      (remove_dups (markedNames cs)).
Proof.
  rewrite <- recencyStep_foldl.
  induction cs as [|c cs IH] using rev_ind; [done|].
  destruct (after_inv cs) as [Hwf Hin].
  rewrite after_snoc, (call_stateful _ c Hwf Hin), IH.
  unfold markedNames. rewrite omap_app. simpl.
  destruct c as [?|cardName [card|]]; simpl; rewrite ?app_nil_r; try done.
  by rewrite foldl_snoc.
Qed.

(** [cardSet] over a call of [getCard] that finds or builds the card, in a
    pool without stateful names. *)
Lemma getCard_recencyStep w cardName payload card :
  pool_inv (this w) → within 0 (this w) →
  statefulCardSet (this w) = [] →
  newAdaptiveCard cardName payload = inr card →
  statefulCardSet (this (getCard cardName (Some payload) w).1) = [] ∧
  cardSet (this (getCard cardName (Some payload) w).1) =
    recencyStep (Z.to_nat CAPACITY_CARDS) (cardSet (this w)) cardName.
Proof.
  intros (Hnd & _) _ Hs Hnew.
  assert (∀ w1 w',
    cardSet (this w1) = cardSet (this w) →
    statefulCardSet (this w1) = statefulCardSet (this w) →
    purgeUnusedCard (marked cardName None w1) = (w', inr tt) →
    statefulCardSet (this w') = [] ∧
    cardSet (this w') =
      recencyStep (Z.to_nat CAPACITY_CARDS) (cardSet (this w)) cardName) as Hstep.
  { intros w1 w' Hc1 Hs1 Hrun.
    assert (NoDup (cardSet (this (marked cardName None w1)))) as Hnd1
      by (simpl; rewrite Hc1; by apply NoDup_move).
    assert (statefulCardSet (this (marked cardName None w1)) = []) as Hs1'
      by (simpl; by rewrite Hs1).
    destruct (purgeUnusedCard_oldest _ _ _ Hnd1 Hs1' Hrun) as [? ->].
    split; [done|]. simpl. by rewrite Hc1. }
  destruct (lookupCard (cardPool (this w)) cardName) as [c|] eqn:Hm.
  - set (w1 := {| this := this w; console := console w ++ [HitCachedCard cardName] |}).
    destruct (purgeUnusedCard_ok (marked cardName None w1)) as [w' Hrun].
    rewrite (getCard_hit _ _ _ _ _ Hm Hrun). by apply (Hstep w1).
  - set (w1 := {| this := set_cardPool <[cardName := card]> (this w);
                  console := console w ++ [AddedCard cardName] |}).
    destruct (purgeUnusedCard_ok (marked cardName None w1)) as [w' Hrun].
    rewrite (getCard_miss _ _ _ _ _ Hm Hnew Hrun). by apply (Hstep w1).
Qed.

(** X11. Least recently used.  When a client of a new pool only gets cards,
    each call with a name and a payload that the builder accepts for that
    name, [cardSet] holds the [CAPACITY_CARDS] distinct names most recently
    got, ordered by their last use, and no name is stateful. *)
Theorem getCard_most_recently_used (gets : list (CardName * CardPayload)) :
  (∀ n payload, (n, payload) ∈ gets →
     ∃ card, newAdaptiveCard n payload = inr card) →
  cardSet (this (after ((λ g, GetCard g.1 (Some g.2)) <$> gets))) =
    drop (length (remove_dups gets.*1) - Z.to_nat CAPACITY_CARDS)
      (remove_dups gets.*1) ∧
  statefulCardSet (this (after ((λ g, GetCard g.1 (Some g.2)) <$> gets))) = [].
Proof.
  rewrite <- recencyStep_foldl.
  induction gets as [|[x payload] gets IH] using rev_ind; [done|].
  intros Hnew. destruct IH as [IHc IHs].
  { intros n p Hn. apply (Hnew n p), elem_of_app. by left. }
  destruct (Hnew x payload) as [card Hx]; [apply elem_of_app; right; left|].
  rewrite !fmap_app. simpl. rewrite after_snoc, foldl_snoc. simpl.
  destruct (after_inv ((λ g, GetCard g.1 (Some g.2)) <$> gets)) as [Hwf Hin].
  destruct (getCard_recencyStep _ x payload card Hwf Hin IHs Hx) as [-> ->].
  by rewrite IHc.
Qed.

(** X14. With a payload the builder accepts, [getCard] always returns
    something, between the calls of a client: what a read of the storage
    found under the name on a hit, and on a miss the new card, which its own
    purge never takes; a read of the storage finds the same when the call
    has returned. *)
Theorem getCard_returns_card cs cardName cardPayload card :
  newAdaptiveCard cardName cardPayload = inr card →
  ∃ w',
    getCard cardName (Some cardPayload) (after cs) =
      (w', inr (Some (default (Card card)
                        (lookupCard (cardPool (this (after cs))) cardName)))) ∧
    lookupCard (cardPool (this w')) cardName =
      Some (default (Card card)
              (lookupCard (cardPool (this (after cs))) cardName)).
Proof.
  intros Hnew. destruct (after_inv cs) as [Hwf Hin]. set (w := after cs) in *.
  assert (∀ w0,
    pool_inv (this (marked cardName None w0)) →
    cardSet (this w0) = cardSet (this w) →
    statefulCardSet (this w0) = statefulCardSet (this w) →
    ∃ w', purgeUnusedCard (marked cardName None w0) = (w', inr tt) ∧
      lookupCard (cardPool (this w')) cardName
        = lookupCard (cardPool (this w0)) cardName) as Hkept.
  { intros w0 Hinv0 Hc Hs.
    destruct (purgeUnusedCard_inv _ Hinv0) as (w' & Hrun & _ & _ & Hlast).
    - apply marked_within. unfold within. by rewrite Hc, Hs.
    - destruct (Hlast cardName) as [_ Hsame]; [simpl; apply last_move|].
      exists w'. split; [done|]. unfold lookupCard. by rewrite Hsame. }
  destruct (lookupCard (cardPool (this w)) cardName) as [found|] eqn:Hm; simpl.
  - set (w0 := {| this := this w; console := console w ++ [HitCachedCard cardName] |}).
    destruct (Hkept w0) as (w' & Hrun & Hsame); [|done..|].
    { apply marked_inv; simpl; [done|]. rewrite Hm. eauto. }
    exists w'. rewrite (getCard_hit _ _ _ _ _ Hm Hrun), Hsame. simpl.
    by rewrite Hm.
  - set (w0 := {| this := set_cardPool <[cardName := card]> (this w);
                  console := console w ++ [AddedCard cardName] |}).
    destruct (Hkept w0) as (w' & Hrun & Hsame); [|done..|].
    { by apply marked_inv_built. }
    exists w'. rewrite (getCard_miss _ _ _ _ _ Hm Hnew Hrun), Hsame. simpl.
    by rewrite lookupCard_insert.
Qed.


(** X15. What the pool keeps between the calls of a client: every name with
    a stored card is a pooled name and not the name of a member of
    [Object.prototype]; a read of the storage finds something under every
    pooled name; so apart from the names of members of [Object.prototype]
    the pooled names are exactly the names with a stored card; and the
    stateful names are pooled names. *)
Theorem after_storage_and_sets cs :
  (∀ n, is_Some (cardPool (this (after cs)) !! n) →
        n ∈ cardSet (this (after cs)) ∧ inherited n = false) ∧
  (∀ n, n ∈ cardSet (this (after cs)) →
        is_Some (lookupCard (cardPool (this (after cs))) n)) ∧
  (∀ n, inherited n = false →
        n ∈ cardSet (this (after cs)) ↔ is_Some (cardPool (this (after cs)) !! n)) ∧
  statefulCardSet (this (after cs)) ⊆ cardSet (this (after cs)) ∧
  size (cardPool (this (after cs))) ≤ length (cardSet (this (after cs))).
Proof.
  destruct (after_inv cs) as [(Hnd & _ & Hsub & Hget & Hown) _].
  split_and!; try done.
  - intros n Hinh. split; [|by intros [??]%Hown].
    intros [found Hfound]%Hget. unfold lookupCard in Hfound. rewrite Hinh in Hfound.
    destruct (cardPool (this (after cs)) !! n); [eauto|done].
  - rewrite <- size_dom, <- (size_list_to_set (C := gset string)) by done.
    apply subseteq_size. intros n Hn%elem_of_dom.
    apply elem_of_list_to_set. by apply Hown.
Qed.

(** X16. Revival, apart from the names of members of [Object.prototype].
    When a read of the storage finds nothing under the name,
    [markCardInuse] with a stateful card stores that very card under the
    name without building a card (no [AddedCard] on the console), and in the
    same call puts the name at the end of [cardSet] and of [statefulCardSet]
    and then runs [purgeUnusedCard], which leaves the name stored and the
    newest of both sets. *)
Theorem markCardInuse_revives w cardName statefulRef :
  pool_inv (this w) →
  lookupCard (cardPool (this w)) cardName = None →
  ∃ w',
    markCardInuse cardName (Some statefulRef) w = (w', inr tt) ∧
    purgeUnusedCard
      {| this := {| cardPool := <[cardName := statefulRef]> (cardPool (this w));
                    cardSet := cardSet (this w) ++ [cardName];
                    statefulCardSet := statefulCardSet (this w) ++ [cardName] |};
         console := console w |} = (w', inr tt) ∧
    cardPool (this w') !! cardName = Some statefulRef ∧
    last (cardSet (this w')) = Some cardName ∧
    last (statefulCardSet (this w')) = Some cardName ∧
    ∃ msgs, console w' = console w ++ msgs ∧ ∀ n, AddedCard n ∉ msgs.
Proof.
  intros Hinv Hm. pose proof Hinv as (Hnd & Hnds & Hsub & _).
  pose proof (unknown_not_pooled _ _ Hinv Hm) as Hc.
  assert (cardName ∉ statefulCardSet (this w)) as Hs by (intros ?%Hsub; done).
  set (entry := {| this := _; console := console w |}).
  assert (marked cardName (Some statefulRef) w = entry) as Hentry.
  { unfold marked, entry. by rewrite Hm, !add_delete, !delete_notin. }
  rewrite markCardInuse_run, Hm, Hentry.
  rewrite (bool_decide_true (is_Some (Some statefulRef))) by eauto.
  rewrite orb_true_r.
  destruct (purgeUnusedCard_newest_stateful entry cardName)
    as (w' & Hrun & ? & ? & Hm'); simpl.
  - apply NoDup_app. split_and!; [done| |apply NoDup_singleton].
    by intros x ? ->%list_elem_of_singleton.
  - apply NoDup_app. split_and!; [done| |apply NoDup_singleton].
    by intros x ? ->%list_elem_of_singleton.
  - apply last_snoc.
  - apply last_snoc.
  - exists w'. simpl in Hm'. rewrite lookup_insert_eq in Hm'.
    split_and!; try done. apply (purgeUnusedCard_console _ _ _ Hrun).
Qed.

End CardPool.

(** ** A concrete pool

    Cards and payloads are numbers, a card is its payload, and the payload 0
    cannot be parsed.  The pool has capacity 4 and one stateful slot. *)

Definition demoCard (cardName : CardName) (cardPayload : nat) : string + nat :=
  match cardPayload with
  | O => inl "no payload"%string
  | S _ => inr cardPayload
  end.

Definition demoCapacity : option Z := Some 4%Z.

(** A pool one name over its capacity, with one stateful name. *)
Definition demoFull : @World nat :=
  {| this := {| cardPool := list_to_map [("a", 1); ("b", 2); ("c", 3); ("d", 4); ("e", 5)];
                cardSet := ["a"; "b"; "c"; "d"; "e"];
                statefulCardSet := ["a"] |};
     console := [] |}.


Lemma purgeCard_first_unprotected_witness :
  NoDup (cardSet (this demoFull)) ∧
  (JSSet.size (cardSet (this demoFull)) > CAPACITY_CARDS demoCapacity)%Z ∧
  ∃ w', purgeCard (Exn := string) demoCapacity demoFull = (w', inr tt) ∧
    cardSet (this w') = ["a"; "c"; "d"; "e"] ∧
    cardPool (this w') !! "b" = None.
Proof.
  assert (NoDup (cardSet (this demoFull))) as Hnd
    by (apply (bool_decide_unpack _); vm_compute; exact I).
  assert (JSSet.size (cardSet (this demoFull)) > CAPACITY_CARDS demoCapacity)%Z
    as Hover by (vm_compute; reflexivity).
  split; [exact Hnd|]. split; [exact Hover|].
  destruct (purgeCard_first_unprotected (Exn := string) demoCard demoCapacity
              demoFull Hnd Hover) as (w' & Hrun & _).
  exists w'. split; [exact Hrun|].
  vm_compute in Hrun. injection Hrun as <-. split; reflexivity.
Defined.



Lemma getCard_present_is_newest_witness :
  ∃ w', getCard demoCard demoCapacity "a" None
          (after demoCard demoCapacity [GetCard "a" (Some 1); GetCard "b" (Some 2)])
        = (w', inr (Some (Card 1))) ∧
    "a" ∈ cardSet (this w') ∧
    last (cardSet (this w')) = Some "a" ∧
    cardPool (this w') !! "a" = Some 1.
Proof.
  set (r := getCard demoCard demoCapacity "a" None
              (after demoCard demoCapacity [GetCard "a" (Some 1); GetCard "b" (Some 2)])).
  assert (r = (r.1, inr (Some (Card 1)))) as Hrun by (vm_compute; reflexivity).
  exists r.1. split; [exact Hrun|].
  destruct (getCard_present_is_newest demoCard demoCapacity
              [GetCard "a" (Some 1); GetCard "b" (Some 2)] "a" None r.1 (Card 1) Hrun)
    as (Hin & Hlast & _ & Hcard).
  split; [exact Hin|]. split; [exact Hlast|]. exact (Hcard 1 eq_refl).
Defined.

Lemma markCardInuse_revives_witness :
  pool_inv (this (after demoCard demoCapacity [])) ∧
  lookupCard (cardPool (this (after demoCard demoCapacity []))) "a" = None ∧
  ∃ w', markCardInuse (Exn := string) demoCapacity "a" (Some 7)
          (after demoCard demoCapacity []) = (w', inr tt) ∧
    cardPool (this w') !! "a" = Some 7 ∧
    last (cardSet (this w')) = Some "a" ∧
    last (statefulCardSet (this w')) = Some "a".
Proof.
  pose proof (after_inv demoCard demoCapacity []) as [Hwf _].
  split; [exact Hwf|]. split; [reflexivity|].
  destruct (markCardInuse_revives demoCard demoCapacity
              (after demoCard demoCapacity []) "a" 7 Hwf eq_refl)
    as (w' & Hrun & _ & Hm & Hc & Hs & _).
  exists w'. repeat split; assumption.
Defined.

Lemma protection_precedence_witness :
  CAPACITY_CARDS demoCapacity = 4%Z ∧
  let w := after demoCard demoCapacity
             [GetCard "a" (Some 1); GetCard "b" (Some 2); GetCard "c" (Some 3);
              GetCard "d" (Some 4); MarkCardInuse "a" (Some 1);
              GetCard "e" (Some 5)] in
  cardPool (this w) !! "a" = Some 1 ∧ cardPool (this w) !! "b" = None ∧
  cardSet (this w) = ["c"; "d"; "a"; "e"].
Proof.
  split; [reflexivity|].
  destruct (protection_precedence demoCard demoCapacity 1 2 3 4 5 1 2 3 4 5 1
              eq_refl eq_refl eq_refl eq_refl eq_refl eq_refl)
    as (_ & Ha & Hb & Hc & _).
  repeat split; assumption.
Defined.

Lemma getCard_factory_failure_witness :
  lookupCard (cardPool (this (@newWorld nat))) "a" = None ∧
  demoCard "a" 0 = inl "no payload"%string ∧
  getCard demoCard demoCapacity "a" (Some 0) newWorld
    = (newWorld, inl "no payload"%string).
Proof.
  split; [reflexivity|]. split; [reflexivity|].
  destruct (getCard_factory_failure demoCard demoCapacity newWorld "a" 0
              "no payload"%string eq_refl eq_refl) as (w' & Hrun & -> & _).
  exact Hrun.
Defined.

Lemma markCardInuse_newest_twice_witness :
  is_Some (cardPool (this (after demoCard demoCapacity
                             [GetCard "a" (Some 1); GetCard "b" (Some 2)])) !! "b") ∧
  last (cardSet (this (after demoCard demoCapacity
                         [GetCard "a" (Some 1); GetCard "b" (Some 2)]))) = Some "b" ∧
  ∃ w1 w2,
    markCardInuse (Exn := string) demoCapacity "b" None
      (after demoCard demoCapacity [GetCard "a" (Some 1); GetCard "b" (Some 2)])
      = (w1, inr tt) ∧
    markCardInuse (Exn := string) demoCapacity "b" None w1 = (w2, inr tt) ∧
    cardSet (this w2) = ["a"; "b"] ∧ statefulCardSet (this w2) = [].
Proof.
  assert (is_Some (cardPool (this (after demoCard demoCapacity
            [GetCard "a" (Some 1); GetCard "b" (Some 2)])) !! "b")) as Hm
    by (exists 2; reflexivity).
  split; [exact Hm|]. split; [reflexivity|].
  destruct (markCardInuse_newest_twice demoCard demoCapacity
              [GetCard "a" (Some 1); GetCard "b" (Some 2)] "b" Hm eq_refl)
    as (w1 & w2 & Hrun1 & Hrun2 & _ & _ & Hc & Hs & _).
  exists w1, w2. rewrite Hc, Hs. repeat split; assumption.
Defined.

(** ** Runs of the concrete pool *)

(** Five cards, none stateful: the oldest one is purged. *)
Example lru_order :
  cardSet (this (after demoCard demoCapacity
                   [GetCard "a" (Some 1); GetCard "b" (Some 2); GetCard "c" (Some 3);
                    GetCard "d" (Some 4); GetCard "e" (Some 5)]))
  = ["b"; "c"; "d"; "e"].
Proof. reflexivity. Qed.

(** A second stateful card takes the only stateful slot; the first one stays
    pooled and stored. *)
Example dequeue_without_delete :
  let w := after demoCard demoCapacity
             [MarkCardInuse "a" (Some 1); MarkCardInuse "b" (Some 2)] in
  statefulCardSet (this w) = ["b"] ∧ cardSet (this w) = ["a"; "b"] ∧
  cardPool (this w) !! "a" = Some 1 ∧
  console w = [DequeuedStatefulCard (Some "a") ["b"]].
Proof. repeat split; reflexivity. Qed.

(** A card dequeued from the stateful set is the next one purged. *)
Example dequeued_then_purged :
  let w := after demoCard demoCapacity
             [MarkCardInuse "a" (Some 1); MarkCardInuse "b" (Some 2);
              GetCard "c" (Some 3); GetCard "d" (Some 4); GetCard "e" (Some 5)] in
  cardSet (this w) = ["b"; "c"; "d"; "e"] ∧ cardPool (this w) !! "a" = None.
Proof. repeat split; reflexivity. Qed.

(** A payload that cannot be parsed leaves no trace, and a name that is
    neither stored nor given a payload is not found. *)
Example failed_and_absent :
  getCard demoCard demoCapacity "a" (Some 0) newWorld = (newWorld, inl "no payload"%string) ∧
  getCard demoCard demoCapacity "a" None newWorld = (newWorld, inr None).
Proof. split; reflexivity. Qed.

(** ** More runs of the concrete pool *)

(** A pool of capacity 8, with two stateful slots. *)
Definition demoCapacity8 : option Z := Some 8%Z.

(** The worlds after one, two and four cards were got, and after two cards
    were marked stateful in the larger pool. *)
Definition demoA : @World nat :=
  after demoCard demoCapacity [GetCard "a" (Some 1)].

Definition demoAB : @World nat :=
  after demoCard demoCapacity [GetCard "a" (Some 1); GetCard "b" (Some 2)].

Definition demoABCD : @World nat :=
  after demoCard demoCapacity
    [GetCard "a" (Some 1); GetCard "b" (Some 2); GetCard "c" (Some 3);
     GetCard "d" (Some 4)].

Definition demoMarkedAB : @World nat :=
  after demoCard demoCapacity8
    [MarkCardInuse "a" (Some 1); MarkCardInuse "b" (Some 2)].

Lemma getCard_hit_ignores_payload_witness :
  cardPool (this demoAB) !! "a" = Some 1 ∧
  demoCard "a" 0 = inl "no payload"%string ∧
  (getCard demoCard demoCapacity "a" (Some 0) demoAB).2 = inr (Some (Card 1)) ∧
  cardSet (this (getCard demoCard demoCapacity "a" (Some 0) demoAB).1) = ["b"; "a"].
Proof.
  split; [reflexivity|]. split; [reflexivity|]. unfold demoAB.
  by rewrite (getCard_hit_ignores_payload demoCard demoCapacity
                [GetCard "a" (Some 1); GetCard "b" (Some 2)] "a" (Some 0) 1 eq_refl).
Defined.

Lemma getCard_builds_with_room_witness :
  lookupCard (cardPool (this demoA)) "b" = None ∧
  demoCard "b" 2 = inr 2 ∧
  (JSSet.size (cardSet (this demoA)) < CAPACITY_CARDS demoCapacity)%Z ∧
  cardSet (this (getCard demoCard demoCapacity "b" (Some 2) demoA).1) = ["a"; "b"].
Proof.
  split; [reflexivity|]. split; [reflexivity|]. split; [reflexivity|]. unfold demoA.
  by rewrite (getCard_builds_with_room demoCard demoCapacity
                [GetCard "a" (Some 1)] "b" 2 2 eq_refl eq_refl eq_refl).
Defined.

Lemma getCard_builds_when_full_witness :
  lookupCard (cardPool (this demoABCD)) "e" = None ∧
  demoCard "e" 5 = inr 5 ∧
  JSSet.size (cardSet (this demoABCD)) = CAPACITY_CARDS demoCapacity ∧
  ∃ n, n ∈ cardSet (this demoABCD) ∧
    cardPool (this (getCard demoCard demoCapacity "e" (Some 5) demoABCD).1) !! n = None.
Proof.
  split; [reflexivity|]. split; [reflexivity|]. split; [reflexivity|].
  destruct (getCard_builds_when_full demoCard demoCapacity
              [GetCard "a" (Some 1); GetCard "b" (Some 2);
               GetCard "c" (Some 3); GetCard "d" (Some 4)] "e" 5 5
              eq_refl eq_refl eq_refl) as (l1 & n & l2 & Heq & _ & _ & Hrun).
  exists n. unfold demoABCD. split.
  - rewrite Heq. apply elem_of_app. right. left.
  - rewrite Hrun. simpl. apply lookup_delete_eq.
Defined.

Lemma stateful_survives_witness :
  "b" ∈ statefulCardSet (this demoMarkedAB) ∧
  head (statefulCardSet (this demoMarkedAB)) ≠ Some "b" ∧
  "b" ∈ statefulCardSet
          (this (call demoCard demoCapacity8 demoMarkedAB (MarkCardInuse "c" (Some 3)))).
Proof.
  assert ("b" ∈ statefulCardSet (this demoMarkedAB)) as Hb
    by (apply (bool_decide_unpack _); vm_compute; exact I).
  assert (head (statefulCardSet (this demoMarkedAB)) ≠ Some "b")
    as Hhead by (vm_compute; discriminate).
  split; [exact Hb|]. split; [exact Hhead|].
  apply (stateful_survives demoCard demoCapacity8
           [MarkCardInuse "a" (Some 1); MarkCardInuse "b" (Some 2)]
           (MarkCardInuse "c" (Some 3)) "b" Hb Hhead).
Defined.

(** The same name may come with different payloads. *)
Definition demoGets : list (CardName * nat) :=
  [("a", 1); ("b", 2); ("c", 3); ("d", 4); ("e", 5); ("b", 6)].

Lemma getCard_most_recently_used_witness :
  (∀ n payload, (n, payload) ∈ demoGets → ∃ card, demoCard n payload = inr card) ∧
  cardSet (this (after demoCard demoCapacity
                   ((λ g, GetCard g.1 (Some g.2)) <$> demoGets)))
    = ["c"; "d"; "e"; "b"].
Proof.
  assert (∀ n payload, (n, payload) ∈ demoGets →
            ∃ card, demoCard n payload = inr card) as Hnew.
  { intros n payload Hin. exists payload.
    repeat (apply elem_of_cons in Hin as [[= -> ->]|Hin]; [reflexivity|]).
    by apply elem_of_nil in Hin. }
  split; [exact Hnew|].
  destruct (getCard_most_recently_used demoCard demoCapacity demoGets Hnew)
    as [-> _].
  reflexivity.
Defined.

Lemma getCard_returns_card_witness :
  demoCard "e" 5 = inr 5 ∧
  (getCard demoCard demoCapacity "e" (Some 5) demoABCD).2 = inr (Some (Card 5)).
Proof.
  split; [reflexivity|].
  destruct (getCard_returns_card demoCard demoCapacity
              [GetCard "a" (Some 1); GetCard "b" (Some 2);
               GetCard "c" (Some 3); GetCard "d" (Some 4)] "e" 5 5 eq_refl)
    as (w' & Hrun & _).
  unfold demoABCD. by rewrite Hrun.
Defined.

Lemma markCardInuse_touch_witness :
  "a" ∈ cardSet (this demoAB) ∧
  cardSet (this (markCardInuse (Exn := string) demoCapacity "a" None demoAB).1)
    = ["b"; "a"] ∧
  lookupCard (cardPool (this demoAB)) "z" = None ∧
  markCardInuse (Exn := string) demoCapacity "z" None demoAB = (demoAB, inr tt).
Proof.
  assert ("a" ∈ cardSet (this demoAB)) as Ha
    by (apply (bool_decide_unpack _); vm_compute; exact I).
  destruct (markCardInuse_touch demoCard demoCapacity
              [GetCard "a" (Some 1); GetCard "b" (Some 2)] "a") as (_ & Hmove & _).
  destruct (markCardInuse_touch demoCard demoCapacity
              [GetCard "a" (Some 1); GetCard "b" (Some 2)] "z") as (_ & _ & Hidle).
  split; [exact Ha|]. split; [|split; [reflexivity|exact (Hidle eq_refl)]].
  unfold demoAB. by rewrite (Hmove Ha).
Defined.

(** ** Names of members of [Object.prototype]

    What the pool does with such a name, on the concrete pool: a card is
    never built or stored for it, a lookup of it in a full pool purges a
    card, and a mark with a stateful card makes it stateful although
    nothing is stored. *)

Example inherited_name_never_built :
  getCard demoCard demoCapacity "toString" (Some 1) newWorld =
    ({| this := {| cardPool := ∅; cardSet := ["toString"]; statefulCardSet := [] |};
        console := [HitCachedCard "toString"] |},
     inr (Some (Inherited "toString"))).
Proof. reflexivity. Qed.

Example inherited_name_purges :
  let r := getCard demoCard demoCapacity "valueOf" None demoABCD in
  r.2 = inr (Some (Inherited "valueOf")) ∧
  cardSet (this r.1) = ["b"; "c"; "d"; "valueOf"] ∧
  cardPool (this r.1) !! "a" = None.
Proof. repeat split; reflexivity. Qed.

Example inherited_name_stateful :
  let w := after demoCard demoCapacity [MarkCardInuse "__proto__" (Some 7)] in
  statefulCardSet (this w) = ["__proto__"] ∧ cardPool (this w) = ∅.
Proof. split; reflexivity. Qed.

(** ** The names [main] asks for

    [main] builds a pool of the default capacity and gets the cards named
    3, 2, 1, 0 and then 0 to 15 (lines 85-86 and 100-101); rendering and the
    callbacks of the [adaptivecards] library are not modelled.  With a
    builder that accepts the payloads, the pool ends with the names 8 to
    15. *)

Definition mainCardNames : list CardName :=
  pretty <$> (reverse (seq 0 4) ++ seq 0 16).

Example main_pool :
  cardSet (this (after demoCard None ((λ n, GetCard n (Some 1)) <$> mainCardNames)))
    = ["8"; "9"; "10"; "11"; "12"; "13"; "14"; "15"] ∧
  CAPACITY_CARDS None = 8%Z ∧ CAPACITY_STATEFUL_CARDS None = 2%Z.
Proof. repeat split; vm_compute; reflexivity. Qed.
